(** * generate_file_tree.py: a flat list of paths rendered as a markdown outline

    Shallow embedding of [scripts/generate_file_tree.py] and the properties
    of its specification.

    Text is modelled by [string], one [ascii] per character (code points
    below 256); Python compares strings by code point, which is the order
    [String.le] of stdpp.  The nested [dict] that holds the tree keeps its
    keys in insertion order, as Python's does, so it is an association list
    with unique keys.  The file system is a finite map from file names to
    contents and the console is the list of printed messages. *)

From Stdlib Require Import String Ascii List Bool Arith Lia.
From stdpp Require Import base list sorting strings gmap.

(** ** The Python built-ins the script relies on *)

Module Py.

(** [str.isspace] on one character, for code points below 256. *)
Definition isspace (c : ascii) : bool :=
  let n := nat_of_ascii c in
  ((9 <=? n) && (n <=? 13)) || ((28 <=? n) && (n <=? 32))
  || (n =? 133) || (n =? 160).

Fixpoint lstrip (s : string) : string :=
  match s with
  | EmptyString => EmptyString
  | String c r => if isspace c then lstrip r else s
  end.

Fixpoint rstrip (s : string) : string :=
  match s with
  | EmptyString => EmptyString
  | String c r =>
      match rstrip r with
      | EmptyString => if isspace c then EmptyString else String c EmptyString
      | r' => String c r'
      end
  end.

(** [s.strip()] *)
Definition strip (s : string) : string := rstrip (lstrip s).

(** [s.split(sep)] for a one-character separator: never the empty list. *)
Fixpoint split (sep : ascii) (s : string) : list string :=
  match s with
  | EmptyString => [EmptyString]
  | String c r =>
      if decide (c = sep) then EmptyString :: split sep r
      else match split sep r with
           | h :: t => String c h :: t
           | [] => [String c EmptyString]
           end
  end.

(** [l.index(x)]: the first position of [x]; [None] stands for the
    [ValueError] raised when [x] is absent. *)
Fixpoint index (l : list string) (x : string) : option nat :=
  match l with
  | [] => None
  | y :: r => if decide (y = x) then Some 0 else S <$> index r x
  end.

(** [sep.join(l)] *)
Definition join (sep : string) (l : list string) : string :=
  String.concat sep l.

(** [sorted(l)] and [l.sort()] on strings.  The order is total and
    antisymmetric, so every correct sort returns the same list. *)
Definition sorted (l : list string) : list string :=
  merge_sort String.le l.

(** [s * n] *)
Fixpoint repeat_str (s : string) (n : nat) : string :=
  match n with
  | 0 => EmptyString
  | S m => s +:+ repeat_str s m
  end.

Definition LF : ascii := ascii_of_nat 10.
Definition CR : ascii := ascii_of_nat 13.

(** Iterating over a file opened in text mode: the lines, each with its
    terminator, where "\r\n" and a lone "\r" are read as "\n". *)
Fixpoint file_lines (s : string) : list string :=
  match s with
  | EmptyString => []
  | String c r =>
      if decide (c = LF) then String LF EmptyString :: file_lines r
      else if decide (c = CR) then
        match r with
        | String c' r' =>
            if decide (c' = LF) then String LF EmptyString :: file_lines r'
            else String LF EmptyString :: file_lines r
        | EmptyString => [String LF EmptyString]
        end
      else match file_lines r with
           | h :: t => String c h :: t
           | [] => [String c EmptyString]
           end
  end.

End Py.

(** ** The tree: a [dict] from segment name to child [dict] *)

Local Unset Elimination Schemes.
Inductive tree : Type :=
  | Dict (items : list (string * tree)).
Local Set Elimination Schemes.

Definition items (t : tree) : list (string * tree) :=
  match t with Dict l => l end.

(** [node.keys()], in insertion order *)
Definition keys (t : tree) : list string := map fst (items t).

Fixpoint assoc {A : Type} (k : string) (l : list (string * A)) : option A :=
  match l with
  | [] => None
  | (k', v) :: r => if decide (k' = k) then Some v else assoc k r
  end.

(** [node[k]]; [None] stands for [KeyError] *)
Definition getitem (t : tree) (k : string) : option tree := assoc k (items t).

(** [k in node] *)
Definition contains (t : tree) (k : string) : bool :=
  match getitem t k with Some _ => true | None => false end.

Fixpoint assoc_set {A : Type} (k : string) (v : A) (l : list (string * A))
  : list (string * A) :=
  match l with
  | [] => [(k, v)]
  | (k', v') :: r =>
      if decide (k' = k) then (k', v) :: r else (k', v') :: assoc_set k v r
  end.

(** [node[k] = v]: an existing key keeps its place, a new one goes last. *)
Definition setitem (t : tree) (k : string) (v : tree) : tree :=
  Dict (assoc_set k v (items t)).

(** The truth value of a dict: it has at least one key. *)
Definition truthy (t : tree) : bool :=
  match items t with [] => false | _ :: _ => true end.

(** ** The script *)

Definition ROOT_NAME : string := "PROJECT INSTRUCTIONS".
Definition INPUT_FILE : string := "project_instructions_raw.txt".
Definition OUTPUT_FILE : string := "project_instructions_tree.md".

Definition SLASH : ascii := ascii_of_nat 47.

(** [[line.strip() for line in f if line.strip()]] *)
Definition read_paths (content : string) : list string :=
  Py.strip <$> filter (λ line, Py.strip line ≠ EmptyString) (Py.file_lines content).

(** [parts[root_idx:]] where [root_idx = parts.index(ROOT_NAME)]; [None]
    when the [ValueError] sends the loop to [continue]. *)
Definition rel_parts (path : string) : option (list string) :=
  let parts := Py.split SLASH path in
  match Py.index parts ROOT_NAME with
  | Some root_idx => Some (drop root_idx parts)
  | None => None
  end.

(** The inner loop [for part in rel_parts], started at [current].  The
    dicts are updated in place in the source; here the updated child is
    stored back under its key, where it already is. *)
Fixpoint insert_parts (parts : list string) (current : tree) : tree :=
  match parts with
  | [] => current
  | part :: rest =>
      let current' :=
        if contains current part then current
        else setitem current part (Dict []) in
      match getitem current' part with
      | Some child => setitem current' part (insert_parts rest child)
      | None => current'
      end
  end.

(** One turn of the loop [for path in paths]. *)
Definition add_path (tree0 : tree) (path : string) : tree :=
  match rel_parts path with
  | Some parts => insert_parts parts tree0
  | None => tree0
  end.

Definition build_tree (paths : list string) : tree :=
  fold_left add_path paths (Dict []).

(** The line appended for [name] at [level], given whether [node[name]] is
    true. *)
Definition entry_line (level : nat) (name : string) (has_children : bool)
  : string :=
  if level =? 0 then "# " +:+ name
  else
    let indent := Py.repeat_str "  " (level - 1) in
    if has_children then indent +:+ "- **" +:+ name +:+ "/**"
    else indent +:+ "- " +:+ name.

(** [print_node(node, level)], threading the list [lines] it appends to.
    The recursive calls are prepared for every child before the loop over
    the sorted keys picks the one of [node[name]]; see [print_node_eq]. *)
Fixpoint print_node (node : tree) (level : nat) (lines : list string)
  {struct node} : list string :=
  match node with
  | Dict its =>
      let calls := map (λ kc, (fst kc, (truthy (snd kc), print_node (snd kc)))) its in
      fold_left
        (λ lines name,
           match assoc name calls with
           | Some (has_children, call) =>
               if level =? 0 then
                 call (level + 1) (lines ++ ["# " +:+ name])
               else
                 let indent := Py.repeat_str "  " (level - 1) in
                 if has_children then
                   call (level + 1) (lines ++ [indent +:+ "- **" +:+ name +:+ "/**"])
                 else
                   lines ++ [indent +:+ "- " +:+ name]
           | None => lines
           end)
        (Py.sorted (map fst its)) lines
  end.

(** The text written to the output file for the loaded [paths]. *)
Definition render (paths : list string) : string :=
  let paths := Py.sorted paths in
  let tree0 := build_tree paths in
  let lines := print_node tree0 0 [] in
  Py.join (String Py.LF EmptyString) lines.

Record world : Type := World {
  files : gmap string string;
  console : list string
}.

(** [generate_tree()]: [open] raises [FileNotFoundError] exactly when the
    input file is absent; [print] appends its message to the console.  Other
    failures of the file system (a file that cannot be read or written) are
    outside this model. *)
Definition generate_tree (w : world) : world :=
  match files w !! INPUT_FILE with
  | None =>
      World (files w) (console w ++ ["Error: " +:+ INPUT_FILE +:+ " not found"])
  | Some content =>
      World (<[OUTPUT_FILE := render (read_paths content)]> (files w))
            (console w ++ ["Tree generated in " +:+ OUTPUT_FILE])
  end.

(** ** Reading the tree *)

(** The node reached from [t] along the segments [p]. *)
Fixpoint descend (t : tree) (p : list string) : option tree :=
  match p with
  | [] => Some t
  | k :: r =>
      match getitem t k with
      | Some c => descend c r
      | None => None
      end
  end.

(** Python dicts have no repeated key, at any depth. *)
Local Unset Elimination Schemes.
Inductive wf : tree → Prop :=
  | wf_Dict its :
      NoDup (map fst its) → Forall (λ kc, wf (snd kc)) its → wf (Dict its).
Local Set Elimination Schemes.

(** The body of the loop of [print_node], for one [name]. *)
Definition visit (node : tree) (level : nat) (lines : list string)
  (name : string) : list string :=
  match getitem node name with
  | Some child =>
      if level =? 0 then
        print_node child (level + 1) (lines ++ ["# " +:+ name])
      else
        let indent := Py.repeat_str "  " (level - 1) in
        if truthy child then
          print_node child (level + 1)
            (lines ++ [indent +:+ "- **" +:+ name +:+ "/**"])
        else
          lines ++ [indent +:+ "- " +:+ name]
  | None => lines
  end.

(** The lines appended for [name]: its own line, then those of its
    subtree. *)
Definition block (node : tree) (level : nat) (name : string) : list string :=
  visit node level [] name.

(** Two trees with the same paths from the root, whatever the order of
    their keys. *)
Definition same_paths (t1 t2 : tree) : Prop :=
  ∀ p, is_Some (descend t1 p) ↔ is_Some (descend t2 p).

(** The normalized entries that a list of paths puts in the tree. *)
Definition entry_of (paths : list string) (parts : list string) : Prop :=
  ∃ path, path ∈ paths ∧ rel_parts path = Some parts.

(** A line that is not empty, neither starts nor ends with "/" and has no
    two "/" in a row. *)
Definition well_slashed (line : string) : Prop :=
  line ≠ ""
  ∧ (∀ s, line ≠ "/" +:+ s)
  ∧ (∀ s, line ≠ s +:+ "/")
  ∧ (∀ s1 s2, line ≠ s1 +:+ "//" +:+ s2).

(** ** The scenario of the specification *)

Definition NL : string := String Py.LF EmptyString.

Definition scenario : list string :=
  ["PROJECT INSTRUCTIONS/A/x.txt"; "PROJECT INSTRUCTIONS/A/y.txt";
   "PROJECT INSTRUCTIONS/B/z.txt"; "ignored/no-anchor/here"].

(** The number of nodes below the root of [t]. *)
Fixpoint tree_size (t : tree) : nat :=
  match t with
  | Dict its => sum_list_with (λ kc, S (tree_size (snd kc))) its
  end.

(** The nodes below [t], each by its path from [t], in the order in which
    [print_node] visits them. *)
Fixpoint node_paths (t : tree) : list (list string) :=
  match t with
  | Dict its =>
      let below := map (λ kc, (fst kc, node_paths (snd kc))) its in
      flat_map
        (λ name,
           match assoc name below with
           | Some ps => [name] :: map (cons name) ps
           | None => []
           end)
        (Py.sorted (map fst its))
  end.

(** The line that a call [print_node(node, level)] appends for the node at
    the path [p] below [node]. *)
Definition line_at (node : tree) (level : nat) (p : list string) : string :=
  match last p, descend node p with
  | Some name, Some child =>
      entry_line (level + length p - 1) name (truthy child)
  | _, _ => EmptyString
  end.

(** ** Induction on trees *)

Section tree_induction.
Variable P : tree → Prop.
Hypothesis HDict : ∀ its, Forall (λ kc, P (snd kc)) its → P (Dict its).

Fixpoint tree_ind (t : tree) : P t :=
  match t with
  | Dict its =>
      HDict its
        ((fix go (l : list (string * tree)) : Forall (λ kc, P (snd kc)) l :=
            match l with
            | [] => @List.Forall_nil _ _
            | (k, c) :: r => @List.Forall_cons _ (λ kc, P (snd kc)) (k, c) r (tree_ind c) (go r)
            end) its)
  end.
End tree_induction.

(** ** The loop of [print_node] as the source writes it *)

Lemma assoc_map {A B : Type} (f : A → B) k (l : list (string * A)) :
  assoc k (map (λ kc, (fst kc, f (snd kc))) l) = f <$> assoc k l.
Proof.
  induction l as [|[k' v] l IH]; simpl; [done|].
  destruct (decide (k' = k)); [done|apply IH].
Qed.

Lemma fold_left_ext {A B : Type} (f g : A → B → A) l a :
  (∀ a b, f a b = g a b) → fold_left f l a = fold_left g l a.
Proof.
  intros Hfg. revert a. induction l as [|b l IH]; intros a; simpl; [done|].
  by rewrite Hfg, IH.
Qed.

Lemma print_node_eq node level lines :
  print_node node level lines =
  fold_left (visit node level) (Py.sorted (keys node)) lines.
Proof.
  destruct node as [its]. simpl. apply fold_left_ext. intros acc name.
  unfold visit, getitem. simpl.
  rewrite (assoc_map (λ c, (truthy c, print_node c))).
  destruct (assoc name its) as [child|]; simpl; [|done].
  destruct (level =? 0); [done|]. by destruct (truthy child).
Qed.

(** ** Dict operations *)

Section dict_facts.
Context {A : Type}.
Implicit Types (l : list (string * A)) (k : string) (v : A).

Lemma assoc_set_lookup k k' v l :
  assoc k' (assoc_set k v l) = if decide (k = k') then Some v else assoc k' l.
Proof.
  induction l as [|[k0 v0] l IH]; simpl.
  - destruct (decide (k = k')); done.
  - destruct (decide (k0 = k)) as [->|Hne]; simpl.
    + destruct (decide (k = k')); done.
    + destruct (decide (k0 = k')) as [->|]; [|done].
      by rewrite decide_False by done.
Qed.

Lemma assoc_None k l : assoc k l = None ↔ k ∉ map fst l.
Proof.
  induction l as [|[k0 v0] l IH]; simpl.
  - split; [intros _; apply not_elem_of_nil|done].
  - rewrite not_elem_of_cons. destruct (decide (k0 = k)) as [->|Hne].
    + split; [done|]. intros [? _]. done.
    + rewrite IH. split; [intros ?; split; [congruence|done]|by intros [_ ?]].
Qed.

Lemma assoc_Some_elem k v l : assoc k l = Some v → (k, v) ∈ l.
Proof.
  induction l as [|[k0 v0] l IH]; simpl; [done|].
  destruct (decide (k0 = k)) as [->|Hne].
  - intros [= ->]. apply list_elem_of_here.
  - intros H. apply list_elem_of_further. by apply IH.
Qed.

Lemma assoc_is_Some k l : is_Some (assoc k l) ↔ k ∈ map fst l.
Proof.
  destruct (assoc k l) as [v|] eqn:E.
  - split; [intros _|by eauto].
    apply assoc_Some_elem in E. apply list_elem_of_fmap. by exists (k, v).
  - split; [by intros [? ?]|]. intros Hin. by apply assoc_None in E.
Qed.

Lemma assoc_set_keys k v l :
  map fst (assoc_set k v l) =
  match assoc k l with Some _ => map fst l | None => map fst l ++ [k] end.
Proof.
  induction l as [|[k0 v0] l IH]; simpl; [done|].
  destruct (decide (k0 = k)) as [->|Hne]; simpl; [done|].
  rewrite IH. by destruct (assoc k l).
Qed.

Lemma assoc_set_same k v l : assoc k l = Some v → assoc_set k v l = l.
Proof.
  induction l as [|[k0 v0] l IH]; simpl; [done|].
  destruct (decide (k0 = k)) as [->|Hne]; [by intros [= ->]|].
  intros H. by rewrite IH.
Qed.

Lemma assoc_set_twice k v v' l :
  assoc_set k v (assoc_set k v' l) = assoc_set k v l.
Proof.
  induction l as [|[k0 v0] l IH]; simpl.
  - by rewrite decide_True by done.
  - destruct (decide (k0 = k)) as [->|Hne]; simpl.
    + by rewrite decide_True by done.
    + rewrite decide_False by done. by rewrite IH.
Qed.

Lemma assoc_set_elem k v l kv :
  kv ∈ assoc_set k v l → kv = (k, v) ∨ kv ∈ l.
Proof.
  induction l as [|[k0 v0] l IH]; simpl.
  - intros ->%list_elem_of_singleton. by left.
  - destruct (decide (k0 = k)) as [->|Hne].
    + intros [->|?]%elem_of_cons; [by left|].
      right. by apply list_elem_of_further.
    + intros [->|?]%elem_of_cons; [right; apply list_elem_of_here|].
      destruct (IH H) as [?|?]; [by left|].
      right. by apply list_elem_of_further.
Qed.
End dict_facts.

Lemma getitem_setitem t k k' v :
  getitem (setitem t k v) k' = if decide (k = k') then Some v else getitem t k'.
Proof. apply assoc_set_lookup. Qed.

Lemma getitem_is_Some t k : is_Some (getitem t k) ↔ k ∈ keys t.
Proof. apply assoc_is_Some. Qed.

Lemma setitem_twice t k v v' : setitem (setitem t k v') k v = setitem t k v.
Proof. unfold setitem. simpl. by rewrite assoc_set_twice. Qed.

Lemma setitem_same t k v : getitem t k = Some v → setitem t k v = t.
Proof.
  destruct t as [its]. unfold getitem, setitem. simpl. intros H.
  by rewrite assoc_set_same.
Qed.

(** ** The inner loop, one segment at a time *)

Lemma insert_parts_cons part rest t :
  insert_parts (part :: rest) t =
  setitem t part (insert_parts rest (default (Dict []) (getitem t part))).
Proof.
  simpl. unfold contains. destruct (getitem t part) as [child|] eqn:E.
  - by rewrite E.
  - rewrite getitem_setitem, decide_True by done. simpl.
    apply setitem_twice.
Qed.

Lemma insert_parts_idem parts t :
  insert_parts parts (insert_parts parts t) = insert_parts parts t.
Proof.
  revert t. induction parts as [|part rest IH]; intros t; [done|].
  rewrite !insert_parts_cons.
  rewrite getitem_setitem, decide_True by done. simpl.
  by rewrite IH, setitem_twice.
Qed.

Lemma descend_insert_parts q t p :
  is_Some (descend (insert_parts q t) p) ↔ is_Some (descend t p) ∨ p `prefix_of` q.
Proof.
  revert t p. induction q as [|part rest IH]; intros t p.
  - simpl. split; [by left|]. intros [?|Hp]; [done|].
    apply prefix_nil_inv in Hp as ->. by eexists.
  - rewrite insert_parts_cons. destruct p as [|k p'].
    { simpl. split; [by left|intros _; by eexists]. }
    simpl. rewrite getitem_setitem.
    destruct (decide (part = k)) as [->|Hne].
    + rewrite IH. destruct (getitem t k) as [c|]; simpl.
      * split; (intros [?|Hp]; [by left|right]).
        -- by apply prefix_cons.
        -- by apply prefix_cons_inv_2 in Hp.
      * split.
        -- intros [Hs|Hp]; right; apply prefix_cons; [|done].
           destruct p'; [apply prefix_nil|]. simpl in Hs. by destruct Hs.
        -- intros [[? ?]|Hp]; [done|]. right. by apply prefix_cons_inv_2 in Hp.
    + split; [by left|]. intros [?|Hp]; [done|].
      apply prefix_cons_inv_1 in Hp. congruence.
Qed.

(** ** Well-formed trees *)

Lemma wf_empty : wf (Dict []).
Proof. constructor; [apply NoDup_nil_2|apply List.Forall_nil]. Qed.

Lemma wf_items t kc : wf t → kc ∈ items t → wf (snd kc).
Proof.
  intros [its _ Hall] Hin. simpl in Hin.
  rewrite Forall_forall in Hall. by apply Hall.
Qed.

Lemma wf_keys t : wf t → NoDup (keys t).
Proof. by intros [its Hnd _]. Qed.

Lemma wf_getitem t k c : wf t → getitem t k = Some c → wf c.
Proof.
  intros Hwf Hget. apply assoc_Some_elem in Hget.
  apply (wf_items t (k, c) Hwf Hget).
Qed.

Lemma wf_setitem t k v : wf t → wf v → wf (setitem t k v).
Proof.
  intros [its Hnd Hall] Hv. unfold setitem. simpl. constructor.
  - rewrite assoc_set_keys. destruct (assoc k its) eqn:E; [done|].
    apply NoDup_app. split; [done|]. split; [|apply NoDup_singleton].
    intros x Hx ->%list_elem_of_singleton. by apply assoc_None in E.
  - rewrite Forall_forall. intros kv [->|Hin]%assoc_set_elem; [done|].
    rewrite Forall_forall in Hall. by apply Hall.
Qed.

Lemma wf_insert_parts parts t : wf t → wf (insert_parts parts t).
Proof.
  revert t. induction parts as [|part rest IH]; intros t Hwf; [done|].
  rewrite insert_parts_cons. apply wf_setitem; [done|]. apply IH.
  destruct (getitem t part) as [c|] eqn:E; simpl.
  - by eapply wf_getitem.
  - apply wf_empty.
Qed.

Lemma wf_add_path t path : wf t → wf (add_path t path).
Proof.
  intros Hwf. unfold add_path. destruct (rel_parts path); [|done].
  by apply wf_insert_parts.
Qed.

Lemma wf_fold_add_path paths t : wf t → wf (fold_left add_path paths t).
Proof.
  revert t. induction paths as [|path paths IH]; intros t Hwf; [done|].
  simpl. by apply IH, wf_add_path.
Qed.

Lemma wf_build_tree paths : wf (build_tree paths).
Proof. apply wf_fold_add_path, wf_empty. Qed.

Lemma wf_descend t p c : wf t → descend t p = Some c → wf c.
Proof.
  revert t. induction p as [|k p IH]; intros t Hwf; simpl.
  - by intros [= <-].
  - destruct (getitem t k) as [c'|] eqn:E; [|done].
    apply IH. by eapply wf_getitem.
Qed.

(** ** Sorting *)

Lemma sorted_Permutation l : Py.sorted l ≡ₚ l.
Proof. apply merge_sort_Permutation. Qed.

Lemma sorted_Sorted l : Sorted String.le (Py.sorted l).
Proof. apply (Sorted_merge_sort String.le). Qed.

Lemma sorted_elem l x : x ∈ Py.sorted l ↔ x ∈ l.
Proof. by rewrite sorted_Permutation. Qed.

Lemma sorted_perm_eq l1 l2 : l1 ≡ₚ l2 → Py.sorted l1 = Py.sorted l2.
Proof.
  intros Hp. apply (Sorted_unique String.le); [apply sorted_Sorted..|].
  by rewrite !sorted_Permutation.
Qed.

(** ** What one call of [print_node] appends *)

Lemma fold_left_blocks {B : Type} (f : list string → B → list string)
    (g : B → list string) l acc :
  (∀ acc b, b ∈ l → f acc b = acc ++ g b) →
  fold_left f l acc = acc ++ flat_map g l.
Proof.
  revert acc. induction l as [|b l IH]; intros acc Hfg; simpl.
  - by rewrite app_nil_r.
  - rewrite IH, Hfg, <- app_assoc; [done|apply list_elem_of_here|].
    intros acc' b' Hin. apply Hfg. by apply list_elem_of_further.
Qed.

Lemma print_node_app node :
  ∀ level lines, print_node node level lines = lines ++ print_node node level [].
Proof.
  induction node as [its IH] using tree_ind. intros level lines.
  assert (Hvisit : ∀ acc name,
    visit (Dict its) level acc name = acc ++ visit (Dict its) level [] name).
  { intros acc name. unfold visit.
    destruct (getitem (Dict its) name) as [child|] eqn:E;
      [|by rewrite app_nil_r].
    apply assoc_Some_elem in E. simpl in E.
    rewrite Forall_forall in IH. specialize (IH _ E). simpl in IH.
    destruct (level =? 0).
    - rewrite IH, (IH _ ([] ++ _)). by rewrite <- app_assoc.
    - destruct (truthy child); [|done].
      rewrite IH, (IH _ ([] ++ _)). by rewrite <- app_assoc. }
  rewrite !print_node_eq.
  rewrite (fold_left_blocks _ (visit (Dict its) level [])) by (intros; apply Hvisit).
  rewrite (fold_left_blocks _ (visit (Dict its) level []) _ [])
    by (intros; apply Hvisit).
  done.
Qed.

Lemma print_node_empty level lines : print_node (Dict []) level lines = lines.
Proof. done. Qed.

Lemma truthy_false t : truthy t = false → t = Dict [].
Proof. destruct t as [[|? ?]]; [done|discriminate]. Qed.

Lemma block_eq node level name :
  block node level name =
  match getitem node name with
  | Some child =>
      entry_line level name (truthy child) :: print_node child (level + 1) []
  | None => []
  end.
Proof.
  unfold block, visit, entry_line.
  destruct (getitem node name) as [child|]; [|done].
  destruct (level =? 0); [rewrite print_node_app; reflexivity|].
  destruct (truthy child) eqn:E; [rewrite print_node_app; reflexivity|].
  apply truthy_false in E as ->. reflexivity.
Qed.

Lemma visit_block node level lines name :
  visit node level lines name = lines ++ block node level name.
Proof.
  unfold block, visit. destruct (getitem node name) as [child|];
    [|by rewrite app_nil_r].
  destruct (level =? 0).
  - rewrite print_node_app, (print_node_app _ _ ([] ++ _)).
    by rewrite <- app_assoc.
  - destruct (truthy child); [|done].
    rewrite print_node_app, (print_node_app _ _ ([] ++ _)).
    by rewrite <- app_assoc.
Qed.

Lemma print_node_blocks node level lines :
  print_node node level lines =
  lines ++ flat_map (block node level) (Py.sorted (keys node)).
Proof.
  rewrite print_node_eq. apply fold_left_blocks.
  intros acc name _. apply visit_block.
Qed.

(** ** The rendering depends on the set of paths of the tree only *)

Lemma descend_singleton t k : is_Some (descend t [k]) ↔ k ∈ keys t.
Proof.
  rewrite <- getitem_is_Some. simpl.
  destruct (getitem t k); split; intros [? ?]; done || by eexists.
Qed.

Lemma same_paths_keys t1 t2 k : same_paths t1 t2 → k ∈ keys t1 ↔ k ∈ keys t2.
Proof. intros H. rewrite <- !descend_singleton. apply H. Qed.

Lemma same_paths_child t1 t2 k c1 c2 :
  same_paths t1 t2 → getitem t1 k = Some c1 → getitem t2 k = Some c2 →
  same_paths c1 c2.
Proof.
  intros H H1 H2 p. specialize (H (k :: p)). simpl in H.
  by rewrite H1, H2 in H.
Qed.

Lemma truthy_keys t : truthy t = true ↔ ∃ k, k ∈ keys t.
Proof.
  destruct t as [[|[k c] its]]; unfold truthy, keys; simpl.
  - split; [done|]. intros [k Hk]. by apply elem_of_nil in Hk.
  - split; [|done]. intros _. exists k. apply list_elem_of_here.
Qed.

Lemma same_paths_truthy t1 t2 : same_paths t1 t2 → truthy t1 = truthy t2.
Proof.
  intros H. apply eq_true_iff_eq. rewrite !truthy_keys.
  split; intros [k Hk]; exists k; by apply (same_paths_keys t1 t2 k H).
Qed.

Lemma same_paths_sorted_keys t1 t2 :
  wf t1 → wf t2 → same_paths t1 t2 →
  Py.sorted (keys t1) = Py.sorted (keys t2).
Proof.
  intros Hwf1 Hwf2 H. apply sorted_perm_eq.
  apply NoDup_Permutation; [by apply wf_keys..|].
  intros k. by apply same_paths_keys.
Qed.

Lemma print_node_ext t1 :
  ∀ t2 level lines, wf t1 → wf t2 → same_paths t1 t2 →
  print_node t1 level lines = print_node t2 level lines.
Proof.
  induction t1 as [its IH] using tree_ind.
  intros t2 level lines Hwf1 Hwf2 H.
  rewrite !print_node_blocks, (same_paths_sorted_keys _ t2) by done.
  f_equal. apply flat_map_ext. intros name. rewrite !block_eq.
  destruct (getitem (Dict its) name) as [c1|] eqn:E1,
           (getitem t2 name) as [c2|] eqn:E2.
  - assert (Hc : same_paths c1 c2) by (by eapply same_paths_child).
    rewrite (same_paths_truthy c1 c2 Hc). f_equal.
    rewrite Forall_forall in IH.
    apply (IH (name, c1)); [by apply assoc_Some_elem in E1| |  |done].
    + apply (wf_getitem _ name _ Hwf1 E1).
    + apply (wf_getitem _ name _ Hwf2 E2).
  - assert (Hk : name ∈ keys t2).
    { apply (same_paths_keys _ _ name H), getitem_is_Some. by eexists. }
    apply getitem_is_Some in Hk as [? ?]. congruence.
  - assert (Hk : name ∈ keys (Dict its)).
    { apply (same_paths_keys _ _ name H), getitem_is_Some. by eexists. }
    apply getitem_is_Some in Hk as [? ?]. congruence.
  - done.
Qed.

(** ** The paths of the tree that the outer loop builds *)

Lemma descend_add_path path t p :
  is_Some (descend (add_path t path) p) ↔
  is_Some (descend t p) ∨
  ∃ parts, rel_parts path = Some parts ∧ p `prefix_of` parts.
Proof.
  unfold add_path. destruct (rel_parts path) as [parts|].
  - rewrite descend_insert_parts. split; (intros [?|Hp]; [by left|right]).
    + by exists parts.
    + destruct Hp as (parts' & [= <-] & ?). done.
  - split; [by left|]. intros [?|(? & ? & ?)]; done.
Qed.

Lemma descend_fold_add_path paths t p :
  is_Some (descend (fold_left add_path paths t) p) ↔
  is_Some (descend t p) ∨
  ∃ path parts,
    path ∈ paths ∧ rel_parts path = Some parts ∧ p `prefix_of` parts.
Proof.
  revert t. induction paths as [|path paths IH]; intros t; simpl.
  - split; [by left|]. intros [?|(? & ? & Hin & _)]; [done|].
    by apply elem_of_nil in Hin.
  - rewrite IH, descend_add_path. split.
    + intros [[?|(parts & ? & ?)]|(path' & parts & ? & ? & ?)].
      * by left.
      * right. exists path, parts. split; [apply list_elem_of_here|done].
      * right. exists path', parts.
        split; [by apply list_elem_of_further|done].
    + intros [?|(path' & parts & [->|Hin]%elem_of_cons & ? & ?)].
      * by left; left.
      * left; right. by exists parts.
      * right. by exists path', parts.
Qed.

Lemma build_tree_same_entries l1 l2 :
  (∀ parts, entry_of l1 parts ↔ entry_of l2 parts) →
  same_paths (build_tree l1) (build_tree l2).
Proof.
  intros H p. unfold build_tree. rewrite !descend_fold_add_path.
  split; (intros [?|(path & parts & Hin & Hrel & ?)]; [by left|right]).
  - destruct (proj1 (H parts)) as (path' & ? & ?); [by exists path|].
    by exists path', parts.
  - destruct (proj2 (H parts)) as (path' & ? & ?); [by exists path|].
    by exists path', parts.
Qed.

Lemma print_build_tree_entries l1 l2 level lines :
  (∀ parts, entry_of l1 parts ↔ entry_of l2 parts) →
  print_node (build_tree l1) level lines =
  print_node (build_tree l2) level lines.
Proof.
  intros H. apply print_node_ext; [apply wf_build_tree..|].
  by apply build_tree_same_entries.
Qed.

Lemma entry_of_sorted l parts : entry_of (Py.sorted l) parts ↔ entry_of l parts.
Proof.
  unfold entry_of. split; intros (path & Hin & ?); exists path;
    (split; [by apply sorted_elem|done]).
Qed.

Lemma render_entries l1 l2 :
  (∀ parts, entry_of l1 parts ↔ entry_of l2 parts) → render l1 = render l2.
Proof.
  intros H. unfold render. f_equal. apply print_build_tree_entries.
  intros parts. by rewrite !entry_of_sorted.
Qed.

Lemma entry_of_ext l1 l2 parts :
  (∀ x, x ∈ l1 ↔ x ∈ l2) → entry_of l1 parts ↔ entry_of l2 parts.
Proof.
  intros H. unfold entry_of.
  split; intros (path & Hin & ?); exists path; (split; [by apply H|done]).
Qed.

Lemma print_build_tree_ext l1 l2 level lines :
  (∀ x, x ∈ l1 ↔ x ∈ l2) →
  print_node (build_tree l1) level lines =
  print_node (build_tree l2) level lines.
Proof.
  intros H. apply print_build_tree_entries. intros parts.
  by apply entry_of_ext.
Qed.

Lemma render_ext l1 l2 : (∀ x, x ∈ l1 ↔ x ∈ l2) → render l1 = render l2.
Proof.
  intros H. apply render_entries. intros parts. by apply entry_of_ext.
Qed.

(** ** The path normalizer *)

Lemma index_None l x : Py.index l x = None ↔ x ∉ l.
Proof.
  induction l as [|y l IH]; simpl.
  - split; [intros _; apply not_elem_of_nil|done].
  - rewrite not_elem_of_cons. destruct (decide (y = x)) as [->|Hne].
    + split; [done|]. by intros [? _].
    + rewrite fmap_None, IH. split; [intros ?; split; [congruence|done]|].
      by intros [_ ?].
Qed.

Lemma index_Some l x i :
  Py.index l x = Some i →
  ∃ pre suf, l = pre ++ x :: suf ∧ (x ∉ pre) ∧ drop i l = x :: suf.
Proof.
  revert i. induction l as [|y l IH]; intros i; simpl; [done|].
  destruct (decide (y = x)) as [->|Hne].
  - intros [= <-]. exists [], l. split; [done|].
    split; [apply not_elem_of_nil|done].
  - destruct (Py.index l x) as [j|] eqn:E; simpl; [|done].
    intros [= <-]. destruct (IH j eq_refl) as (pre & suf & -> & Hpre & Hdrop).
    exists (y :: pre), suf. split; [done|]. split; [|done].
    rewrite not_elem_of_cons. split; [congruence|done].
Qed.

Lemma rel_parts_None path :
  rel_parts path = None ↔ ROOT_NAME ∉ Py.split SLASH path.
Proof.
  unfold rel_parts. rewrite <- index_None.
  destruct (Py.index _ _); split; done.
Qed.

Lemma rel_parts_Some path parts :
  rel_parts path = Some parts →
  ∃ pre suf, Py.split SLASH path = pre ++ ROOT_NAME :: suf ∧
    (ROOT_NAME ∉ pre) ∧ parts = ROOT_NAME :: suf.
Proof.
  unfold rel_parts. destruct (Py.index _ _) as [i|] eqn:E; [|done].
  intros [= <-]. apply index_Some in E as (pre & suf & Hs & Hpre & Hdrop).
  exists pre, suf. by rewrite Hdrop.
Qed.

(** ** The lines of the output, node by node *)

Lemma descend_app t p q :
  descend t (p ++ q) = (descend t p ≫= λ c, descend c q).
Proof.
  revert t. induction p as [|k p IH]; intros t; simpl; [done|].
  destruct (getitem t k); [apply IH|done].
Qed.

Lemma elem_of_flat_map {A B : Type} (f : A → list B) l y :
  y ∈ flat_map f l ↔ ∃ x, x ∈ l ∧ y ∈ f x.
Proof.
  rewrite list_elem_of_In, in_flat_map.
  split; intros (x & Hx & Hy); exists x; by rewrite ?list_elem_of_In in *.
Qed.

(** A line is printed exactly for the nodes below [node], with the line
    of its level. *)
Lemma elem_of_print_node node :
  ∀ level line,
  line ∈ print_node node level [] ↔
  (∃ p name child,
     descend node (p ++ [name]) = Some child ∧
     line = entry_line (level + length p) name (truthy child)).
Proof.
  induction node as [its IH] using tree_ind. intros level line.
  rewrite Forall_forall in IH.
  rewrite print_node_blocks. simpl. rewrite elem_of_flat_map. split.
  - intros (k & Hk & Hline). rewrite block_eq in Hline.
    destruct (getitem (Dict its) k) as [c|] eqn:E;
      [|by apply elem_of_nil in Hline].
    apply elem_of_cons in Hline as [->|Hline].
    + exists [], k, c. simpl. rewrite E, Nat.add_0_r. done.
    + apply (IH (k, c)) in Hline; [|by apply assoc_Some_elem in E].
      destruct Hline as (p & name & child & Hd & ->).
      exists (k :: p), name, child. simpl. rewrite E. split; [done|].
      f_equal. lia.
  - intros (p & name & child & Hd & ->). destruct p as [|k p]; simpl in Hd.
    + destruct (getitem (Dict its) name) as [c|] eqn:E; [|done].
      injection Hd as ->. exists name. split.
      * apply sorted_elem, getitem_is_Some. by eexists.
      * rewrite block_eq, E. simpl. rewrite Nat.add_0_r.
        apply list_elem_of_here.
    + destruct (getitem (Dict its) k) as [c|] eqn:E; [|done].
      exists k. split.
      * apply sorted_elem, getitem_is_Some. by eexists.
      * rewrite block_eq, E. apply list_elem_of_further.
        apply (IH (k, c)); [by apply assoc_Some_elem in E|].
        exists p, name, child. split; [done|]. simpl. f_equal. lia.
Qed.

(** The line of a node is followed at once by the lines of its subtree. *)
Lemma print_node_at p :
  ∀ node level name child,
  descend node (p ++ [name]) = Some child →
  ∃ before after,
    print_node node level [] =
    before
    ++ entry_line (level + length p) name (truthy child)
       :: print_node child (level + length p + 1) []
    ++ after.
Proof.
  induction p as [|k p IH]; intros node level name child Hd; simpl in Hd.
  - destruct (getitem node name) as [c|] eqn:E; [|done]. injection Hd as ->.
    assert (Hin : name ∈ Py.sorted (keys node)).
    { apply sorted_elem, getitem_is_Some. by eexists. }
    apply list_elem_of_split in Hin as (n1 & n2 & Hn).
    exists (flat_map (block node level) n1), (flat_map (block node level) n2).
    rewrite print_node_blocks, Hn, flat_map_app. simpl.
    rewrite block_eq, E, !Nat.add_0_r. done.
  - destruct (getitem node k) as [c|] eqn:E; [|done].
    destruct (IH c (level + 1) name child Hd) as (b & a & Hc).
    assert (Hin : k ∈ Py.sorted (keys node)).
    { apply sorted_elem, getitem_is_Some. by eexists. }
    apply list_elem_of_split in Hin as (n1 & n2 & Hn).
    exists (flat_map (block node level) n1
            ++ entry_line level k (truthy c) :: b),
           (a ++ flat_map (block node level) n2).
    rewrite print_node_blocks, Hn, flat_map_app. simpl.
    rewrite block_eq, E, Hc. simpl.
    replace (level + 1 + length p) with (level + S (length p)) by lia.
    rewrite <- !app_assoc. simpl. rewrite <- !app_assoc. done.
Qed.

(** ** Sibling names are in strict order *)

Lemma StronglySorted_strict l :
  StronglySorted String.le l → NoDup l → StronglySorted (strict String.le) l.
Proof.
  induction 1 as [|x l Hl IH Hx]; intros Hnd; [constructor|].
  apply NoDup_cons in Hnd as [Hxl Hnd]. constructor; [by apply IH|].
  rewrite Forall_forall in Hx. apply Forall_forall. intros y Hy.
  split; [by apply Hx|]. intros Hyx.
  assert (x = y) as -> by (apply (anti_symm String.le); [by apply Hx|done]).
  done.
Qed.

Lemma sorted_keys_strict node :
  wf node → StronglySorted (strict String.le) (Py.sorted (keys node)).
Proof.
  intros Hwf. apply StronglySorted_strict.
  - apply Sorted_StronglySorted; [apply _|apply sorted_Sorted].
  - rewrite sorted_Permutation. by apply wf_keys.
Qed.

(** ** Splitting and joining *)

Lemma app_String a s1 s2 : String a s1 +:+ s2 = String a (s1 +:+ s2).
Proof. reflexivity. Qed.

Lemma app_length s1 s2 :
  String.length (s1 +:+ s2) = String.length s1 + String.length s2.
Proof.
  induction s1 as [|a s1 IH]; [done|].
  rewrite app_String. simpl. by rewrite IH.
Qed.

Lemma repeat_str_length s n :
  String.length (Py.repeat_str s n) = n * String.length s.
Proof.
  induction n as [|n IH]; simpl; [done|].
  rewrite app_length. by rewrite IH.
Qed.

Lemma app_empty_r s : s +:+ "" = s.
Proof. induction s as [|a s IH]; [done|]. by rewrite app_String, IH. Qed.

Lemma app_assoc_str s1 s2 s3 : (s1 +:+ s2) +:+ s3 = s1 +:+ (s2 +:+ s3).
Proof. induction s1 as [|a s1 IH]; [done|]. by rewrite !app_String, IH. Qed.

Lemma split_not_nil sep s : Py.split sep s ≠ [].
Proof.
  destruct s as [|c r]; simpl; [done|].
  destruct (decide (c = sep)); [done|]. by destruct (Py.split sep r).
Qed.

Lemma split_app sep s1 s2 :
  Py.split sep (s1 +:+ String sep s2) = Py.split sep s1 ++ Py.split sep s2.
Proof.
  induction s1 as [|c r IH].
  - change ("" +:+ String sep s2) with (String sep s2). simpl.
    by rewrite decide_True by done.
  - rewrite app_String. simpl. destruct (decide (c = sep)).
    + by rewrite IH.
    + rewrite IH. pose proof (split_not_nil sep r).
      by destruct (Py.split sep r).
Qed.

Lemma join_cons sep x l :
  l ≠ [] → Py.join sep (x :: l) = x +:+ sep +:+ Py.join sep l.
Proof. by destruct l. Qed.

Lemma join_app sep l1 l2 :
  l1 ≠ [] → l2 ≠ [] →
  Py.join sep (l1 ++ l2) = Py.join sep l1 +:+ sep +:+ Py.join sep l2.
Proof.
  intros H1 H2. induction l1 as [|x l1 IH]; [done|].
  destruct l1 as [|y l1].
  - change ([x] ++ l2) with (x :: l2). by rewrite join_cons.
  - change ((x :: y :: l1) ++ l2) with (x :: (y :: l1) ++ l2).
    rewrite !join_cons, IH by done. by rewrite !app_assoc_str.
Qed.

Lemma join_split sep s : Py.join (String sep "") (Py.split sep s) = s.
Proof.
  induction s as [|c r IH]; [done|]. simpl.
  pose proof (split_not_nil sep r) as Hne.
  destruct (decide (c = sep)) as [->|Hc].
  - by rewrite join_cons, IH.
  - destruct (Py.split sep r) as [|h t]; [done|].
    destruct t as [|h' t].
    + simpl in *. by rewrite IH.
    + rewrite join_cons in * by done. rewrite app_String. by rewrite IH.
Qed.

Lemma split_no_sep sep s seg :
  seg ∈ Py.split sep s → sep ∉ list_ascii_of_string seg.
Proof.
  revert seg. induction s as [|c r IH]; intros seg; simpl.
  - intros ->%list_elem_of_singleton. apply not_elem_of_nil.
  - pose proof (split_not_nil sep r) as Hne.
    destruct (decide (c = sep)) as [->|Hc].
    + intros [->|?]%elem_of_cons; [apply not_elem_of_nil|by apply IH].
    + destruct (Py.split sep r) as [|h t]; [done|].
      intros [->|?]%elem_of_cons.
      * simpl. apply not_elem_of_cons. split; [congruence|].
        apply IH, list_elem_of_here.
      * by apply IH, list_elem_of_further.
Qed.

Lemma split_segments_nonempty line :
  (∀ seg, seg ∈ Py.split SLASH line → seg ≠ "") ↔ well_slashed line.
Proof.
  split.
  - intros H. repeat split.
    + intros ->. apply (H ""); [apply list_elem_of_here|done].
    + intros s ->. apply (H ""); [apply list_elem_of_here|done].
    + intros s ->. apply (H ""); [|done]. change "/" with (String SLASH "").
      rewrite split_app. apply elem_of_app. right. apply list_elem_of_here.
    + intros s1 s2 ->. apply (H ""); [|done].
      change ("//" +:+ s2) with (String SLASH (String SLASH s2)).
      rewrite split_app. apply elem_of_app. right. apply list_elem_of_here.
  - intros (Hne & Hlead & Htrail & Hdouble) seg Hin ->.
    apply list_elem_of_split in Hin as (l1 & l2 & Hs).
    pose proof (join_split SLASH line) as Hj. rewrite Hs in Hj.
    destruct l1 as [|x1 l1], l2 as [|x2 l2].
    + by apply Hne.
    + apply (Hlead (Py.join "/" (x2 :: l2))). rewrite <- Hj.
      simpl app. by rewrite join_cons.
    + apply (Htrail (Py.join "/" (x1 :: l1))). rewrite <- Hj.
      by rewrite join_app.
    + apply (Hdouble (Py.join "/" (x1 :: l1)) (Py.join "/" (x2 :: l2))).
      rewrite <- Hj. rewrite join_app by done.
      by rewrite (join_cons _ "" (x2 :: l2)).
Qed.

(** ** The output, node by node in the order of the visit *)

Lemma node_paths_eq node :
  node_paths node =
  flat_map
    (λ name,
       match getitem node name with
       | Some child => [name] :: map (cons name) (node_paths child)
       | None => []
       end)
    (Py.sorted (keys node)).
Proof.
  destruct node as [its]. simpl. apply flat_map_ext. intros name.
  unfold getitem. simpl. rewrite (assoc_map node_paths).
  by destruct (assoc name its).
Qed.

Lemma map_flat_map {A B C : Type} (f : B → C) (g : A → list B) l :
  map f (flat_map g l) = flat_map (λ x, map f (g x)) l.
Proof.
  induction l as [|x l IH]; simpl; [done|]. by rewrite map_app, IH.
Qed.

Lemma elem_of_node_paths node :
  ∀ p, p ∈ node_paths node ↔ p ≠ [] ∧ is_Some (descend node p).
Proof.
  induction node as [its IH] using tree_ind. intros p.
  rewrite Forall_forall in IH.
  rewrite node_paths_eq, elem_of_flat_map. split.
  - intros (name & _ & Hp).
    destruct (getitem (Dict its) name) as [c|] eqn:E;
      [|by apply elem_of_nil in Hp].
    apply elem_of_cons in Hp as [->|Hp].
    + split; [done|]. simpl. rewrite E. by eexists.
    + apply list_elem_of_fmap in Hp as (q & -> & Hq).
      split; [done|]. simpl. rewrite E.
      apply (IH (name, c)) in Hq; [by destruct Hq|].
      by apply assoc_Some_elem in E.
  - intros [Hne Hd]. destruct p as [|name q]; [done|]. simpl in Hd.
    destruct (getitem (Dict its) name) as [c|] eqn:E; [|by destruct Hd].
    exists name. split; [apply sorted_elem, getitem_is_Some; by eexists|].
    rewrite E. destruct q as [|k q]; [apply list_elem_of_here|].
    apply list_elem_of_further, list_elem_of_fmap. exists (k :: q).
    split; [done|]. apply (IH (name, c)); [by apply assoc_Some_elem in E|].
    done.
Qed.

Lemma line_at_singleton node level name child :
  getitem node name = Some child →
  line_at node level [name] = entry_line level name (truthy child).
Proof.
  intros E. unfold line_at. simpl. rewrite E. f_equal. lia.
Qed.

Lemma line_at_cons node level name child q :
  getitem node name = Some child → q ≠ [] →
  line_at node level (name :: q) = line_at child (level + 1) q.
Proof.
  intros E Hq. unfold line_at. simpl descend. rewrite E.
  destruct q as [|k q]; [done|]. rewrite last_cons_cons.
  destruct (last (k :: q)); [|done].
  destruct (descend child (k :: q)); [|done]. f_equal. simpl. lia.
Qed.

Lemma print_node_node_paths node :
  ∀ level,
  print_node node level [] = map (line_at node level) (node_paths node).
Proof.
  induction node as [its IH] using tree_ind. intros level.
  rewrite Forall_forall in IH.
  rewrite print_node_blocks, node_paths_eq, map_flat_map. simpl app.
  apply flat_map_ext. intros name. rewrite block_eq.
  destruct (getitem (Dict its) name) as [c|] eqn:E; [|done]. simpl.
  rewrite (line_at_singleton _ _ _ c E). f_equal.
  rewrite (IH (name, c)) by (by apply assoc_Some_elem in E). simpl.
  rewrite map_map. apply map_ext_in. intros q Hq%list_elem_of_In.
  symmetry. apply line_at_cons; [done|].
  by apply elem_of_node_paths in Hq as [? _].
Qed.

Lemma NoDup_flat_map {A B : Type} (f : A → list B) l :
  NoDup l →
  (∀ x, x ∈ l → NoDup (f x)) →
  (∀ x y z, x ∈ l → y ∈ l → z ∈ f x → z ∈ f y → x = y) →
  NoDup (flat_map f l).
Proof.
  induction l as [|x l IH]; simpl; intros Hnd Hf Hdisj; [apply NoDup_nil_2|].
  apply NoDup_cons in Hnd as [Hx Hnd]. apply NoDup_app. split; [|split].
  - apply Hf, list_elem_of_here.
  - intros z Hz (y & Hy & Hzy)%elem_of_flat_map.
    assert (x = y) as ->; [|done].
    apply (Hdisj x y z); [apply list_elem_of_here| |done..].
    by apply list_elem_of_further.
  - apply IH; [done| |].
    + intros y Hy. by apply Hf, list_elem_of_further.
    + intros y1 y2 z Hy1 Hy2. apply Hdisj; by apply list_elem_of_further.
Qed.

Lemma NoDup_node_paths node : wf node → NoDup (node_paths node).
Proof.
  induction node as [its IH] using tree_ind. intros Hwf.
  rewrite Forall_forall in IH. rewrite node_paths_eq.
  apply NoDup_flat_map.
  - rewrite sorted_Permutation. by apply wf_keys.
  - intros name _.
    destruct (getitem (Dict its) name) as [c|] eqn:E; [|apply NoDup_nil_2].
    apply NoDup_cons. split.
    + intros (q & [= Hq] & Hin)%list_elem_of_fmap. subst q.
      by apply elem_of_node_paths in Hin as [? _].
    + apply (NoDup_fmap_2 (cons name)).
      apply (IH (name, c)); [by apply assoc_Some_elem in E|].
      by eapply wf_getitem.
  - intros x y z _ _ Hx Hy.
    destruct (getitem (Dict its) x) as [cx|]; [|by apply elem_of_nil in Hx].
    destruct (getitem (Dict its) y) as [cy|]; [|by apply elem_of_nil in Hy].
    assert (Hhd : ∀ name (ps : list (list string)),
              z ∈ [name] :: map (cons name) ps → head z = Some name).
    { intros name ps [->|(q & -> & _)%list_elem_of_fmap]%elem_of_cons; done. }
    apply Hhd in Hx, Hy. congruence.
Qed.

(** * The properties of the specification *)

Lemma scenario_lines :
  print_node (build_tree (Py.sorted scenario)) 0 []
  = ["# PROJECT INSTRUCTIONS"; "- **A/**"; "  - x.txt"; "  - y.txt";
     "- **B/**"; "  - z.txt"].
Proof. vm_compute. reflexivity. Qed.

(** C1, as the specification states it, fails: the scenario does not
    render with "- **A/**" and "- **B/**" indented by two spaces and the
    leaves by four. *)
Lemma C1_scenario_counterexample :
  render scenario ≠
  Py.join NL ["# PROJECT INSTRUCTIONS"; "  - **A/**"; "    - x.txt";
              "    - y.txt"; "  - **B/**"; "    - z.txt"].
Proof. vm_compute. discriminate. Qed.

(** C1, amended: the scenario renders as the six lines
    "# PROJECT INSTRUCTIONS", "- **A/**", "  - x.txt", "  - y.txt",
    "- **B/**", "  - z.txt" joined by newlines, the directory lines without
    indent and the leaves indented by two spaces; the line
    "ignored/no-anchor/here" contributes nothing, and the program writes
    this text when the input file holds the four lines. *)
Theorem C1_scenario_output :
  render scenario =
    Py.join NL ["# PROJECT INSTRUCTIONS"; "- **A/**"; "  - x.txt";
                "  - y.txt"; "- **B/**"; "  - z.txt"]
  ∧ render scenario =
    render ["PROJECT INSTRUCTIONS/A/x.txt"; "PROJECT INSTRUCTIONS/A/y.txt";
            "PROJECT INSTRUCTIONS/B/z.txt"]
  ∧ ∀ files0 console0,
      generate_tree
        (World (<[INPUT_FILE := Py.join NL scenario]> files0) console0)
      = World
          (<[OUTPUT_FILE := render scenario]>
             (<[INPUT_FILE := Py.join NL scenario]> files0))
          (console0 ++ ["Tree generated in project_instructions_tree.md"]).
Proof.
  split; [by vm_compute|]. split; [by vm_compute|].
  intros files0 console0. unfold generate_tree. simpl.
  rewrite lookup_insert_eq. do 2 f_equal.
Qed.

(** C2: the lines of the output are exactly these: "# <name>" for every
    child of the synthetic root and, for every node at depth >= 1 below an
    anchor heading, "<indent>- **<name>/**" when it has a child and
    "<indent>- <name>" when it has none, where <indent> is the two spaces
    repeated (depth - 1) times: nothing at depth 1, two more spaces for
    each further level.  It holds for every tree, so for the one built
    from the input. *)
Theorem C2_line_format (root : tree) (line : string) :
  (line ∈ print_node root 0 [] ↔
     (∃ name child, getitem root name = Some child ∧ line = "# " +:+ name)
     ∨ (∃ anchor p name child,
          descend root (anchor :: p ++ [name]) = Some child ∧
          let depth := S (length p) in
          let indent := Py.repeat_str "  " (depth - 1) in
          line = if truthy child then indent +:+ "- **" +:+ name +:+ "/**"
                 else indent +:+ "- " +:+ name))
  ∧ Py.repeat_str "  " (1 - 1) = ""
  ∧ ∀ depth,
      Py.repeat_str "  " (S depth) = "  " +:+ Py.repeat_str "  " depth
      ∧ String.length (Py.repeat_str "  " depth) = 2 * depth.
Proof.
  split; [|split; [done|]].
  - rewrite elem_of_print_node. split.
    + intros (p & name & child & Hd & ->). destruct p as [|anchor p].
      * left. exists name, child. simpl in Hd.
        destruct (getitem root name); by simplify_eq.
      * right. exists anchor, p, name, child. split; [done|].
        unfold entry_line. simpl. by destruct (truthy child).
    + intros [(name & child & Hg & ->)|(anchor & p & name & child & Hd & ->)].
      * exists [], name, child. simpl. by rewrite Hg.
      * exists (anchor :: p), name, child. split; [done|].
        unfold entry_line. simpl. by destruct (truthy child).
  - intros depth. split; [done|]. rewrite repeat_str_length. simpl. lia.
Qed.

(** C3: when the input file does not exist, the program prints the one
    message "Error: project_instructions_raw.txt not found" and returns;
    no file is created or changed, the output file in particular. *)
Theorem C3_missing_input (w : world) :
  files w !! INPUT_FILE = None →
  generate_tree w =
    World (files w)
          (console w ++ ["Error: project_instructions_raw.txt not found"])
  ∧ files (generate_tree w) !! OUTPUT_FILE = files w !! OUTPUT_FILE.
Proof. intros H. unfold generate_tree. by rewrite H. Qed.

Lemma C3_missing_input_witness :
  generate_tree (World ∅ []) =
    World ∅ ["Error: project_instructions_raw.txt not found"]
  ∧ files (generate_tree (World ∅ [])) !! OUTPUT_FILE
    = (∅ : gmap string string) !! OUTPUT_FILE.
Proof. apply (C3_missing_input (World ∅ [])). reflexivity. Defined.

(** C4: an entry none of whose segments is the anchor is skipped: the tree
    and the output are as without it, and no error is printed.  For an
    entry that has the anchor, the segments from its first occurrence to
    the end are what the builder inserts: after the loop turn the tree
    holds the nodes it held and those of the prefixes of that suffix,
    and no other, and in the tree built from the input every prefix of the
    suffix is a node. *)
Theorem C4_anchor_suffix (path : string) :
  (ROOT_NAME ∉ Py.split SLASH path →
     rel_parts path = None
     ∧ (∀ t, add_path t path = t)
     ∧ (∀ l1 l2, render (l1 ++ path :: l2) = render (l1 ++ l2)))
  ∧ (ROOT_NAME ∈ Py.split SLASH path →
     ∃ pre suf,
       Py.split SLASH path = pre ++ ROOT_NAME :: suf
       ∧ (ROOT_NAME ∉ pre)
       ∧ rel_parts path = Some (ROOT_NAME :: suf)
       ∧ (∀ t, add_path t path = insert_parts (ROOT_NAME :: suf) t)
       ∧ (∀ t p,
            is_Some (descend (add_path t path) p) ↔
            is_Some (descend t p) ∨ p `prefix_of` ROOT_NAME :: suf)
       ∧ (∀ paths p,
            path ∈ paths → p `prefix_of` ROOT_NAME :: suf →
            is_Some (descend (build_tree (Py.sorted paths)) p)))
  ∧ (∀ w content,
       files w !! INPUT_FILE = Some content →
       console (generate_tree w) =
       console w ++ ["Tree generated in project_instructions_tree.md"]).
Proof.
  split; [|split].
  - intros Hno. apply rel_parts_None in Hno. split; [done|]. split.
    + intros t. unfold add_path. by rewrite Hno.
    + intros l1 l2. apply render_entries. intros parts. unfold entry_of.
      split; intros (x & Hin & Hrel); exists x; (split; [|done]).
      * apply elem_of_app in Hin as [?|[->|?]%elem_of_cons];
          [apply elem_of_app; by left|congruence|apply elem_of_app; by right].
      * apply elem_of_app in Hin as [?|?]; apply elem_of_app; [by left|].
        right. by apply list_elem_of_further.
  - intros Hin. destruct (rel_parts path) as [parts|] eqn:E.
    + destruct (rel_parts_Some _ _ E) as (pre & suf & Hs & Hpre & ->).
      exists pre, suf. split; [done|]. split; [done|]. split; [done|].
      split; [|split].
      * intros t. unfold add_path. by rewrite E.
      * intros t p. rewrite descend_add_path. split.
        -- intros [?|(parts & Hp & ?)]; [by left|].
           rewrite E in Hp. injection Hp as <-. by right.
        -- intros [?|?]; [by left|]. right. by exists (ROOT_NAME :: suf).
      * intros paths p Hpath Hp. unfold build_tree.
        apply descend_fold_add_path. right.
        exists path, (ROOT_NAME :: suf).
        split; [by apply sorted_elem|done].
    + by apply rel_parts_None in E.
  - intros w content Hfile. unfold generate_tree. by rewrite Hfile.
Qed.

Lemma C4_anchor_suffix_witness :
  (rel_parts "ignored/no-anchor/here" = None
   ∧ (∀ t, add_path t "ignored/no-anchor/here" = t)
   ∧ (∀ l1 l2, render (l1 ++ "ignored/no-anchor/here" :: l2)
               = render (l1 ++ l2)))
  ∧ (∃ pre suf,
       Py.split SLASH "kids/PROJECT INSTRUCTIONS/A/PROJECT INSTRUCTIONS"
       = pre ++ ROOT_NAME :: suf
       ∧ (ROOT_NAME ∉ pre)
       ∧ rel_parts "kids/PROJECT INSTRUCTIONS/A/PROJECT INSTRUCTIONS"
         = Some (ROOT_NAME :: suf)
       ∧ (∀ t, add_path t "kids/PROJECT INSTRUCTIONS/A/PROJECT INSTRUCTIONS"
               = insert_parts (ROOT_NAME :: suf) t)
       ∧ (∀ t p,
            is_Some
              (descend
                 (add_path t "kids/PROJECT INSTRUCTIONS/A/PROJECT INSTRUCTIONS")
                 p) ↔
            is_Some (descend t p) ∨ p `prefix_of` ROOT_NAME :: suf)
       ∧ (∀ paths p,
            "kids/PROJECT INSTRUCTIONS/A/PROJECT INSTRUCTIONS" ∈ paths →
            p `prefix_of` ROOT_NAME :: suf →
            is_Some (descend (build_tree (Py.sorted paths)) p))).
Proof.
  split.
  - apply (proj1 (C4_anchor_suffix "ignored/no-anchor/here")).
    apply index_None. reflexivity.
  - apply (proj1 (proj2 (C4_anchor_suffix
      "kids/PROJECT INSTRUCTIONS/A/PROJECT INSTRUCTIONS"))).
    apply list_elem_of_In. vm_compute. right. left. reflexivity.
Defined.

(** C5: the output depends on the set of loaded lines only: two lists with
    the same elements, a list and a permutation of it in particular, give
    the same text; and already the rendering of the tree does not depend on
    the order in which the paths were inserted, sorted beforehand or not. *)
Theorem C5_order_independent (l1 l2 : list string) :
  (∀ x, x ∈ l1 ↔ x ∈ l2) →
  render l1 = render l2
  ∧ print_node (build_tree l1) 0 [] = print_node (build_tree l2) 0 []
  ∧ (∀ l, l ≡ₚ l1 → render l = render l1).
Proof.
  intros H. split; [by apply render_ext|].
  split; [by apply print_build_tree_ext|].
  intros l Hl. apply render_ext. intros x. by rewrite Hl.
Qed.

Lemma C5_order_independent_witness :
  let l1 := ["PROJECT INSTRUCTIONS/B/z"; "PROJECT INSTRUCTIONS/A"] in
  let l2 := ["PROJECT INSTRUCTIONS/A"; "PROJECT INSTRUCTIONS/B/z";
             "PROJECT INSTRUCTIONS/A"] in
  render l1 = render l2
  ∧ print_node (build_tree l1) 0 [] = print_node (build_tree l2) 0 []
  ∧ (∀ l, l ≡ₚ l1 → render l = render l1).
Proof.
  intros l1 l2. apply (C5_order_independent l1 l2).
  intros x. unfold l1, l2. rewrite !elem_of_cons, !elem_of_nil. tauto.
Defined.

(** C6: inserting a path entry a second time leaves the tree as it is
    after the first insertion, for the segment sequence and for the whole
    loop turn, and a repeated input line does not change the output. *)
Theorem C6_insert_idempotent :
  (∀ parts t, insert_parts parts (insert_parts parts t) = insert_parts parts t)
  ∧ (∀ path t, add_path (add_path t path) path = add_path t path)
  ∧ (∀ path l1 l2 l3,
       render (l1 ++ path :: l2 ++ path :: l3) = render (l1 ++ path :: l2 ++ l3)).
Proof.
  split; [apply insert_parts_idem|]. split.
  - intros path t. unfold add_path.
    destruct (rel_parts path) as [parts|] eqn:E; rewrite ?E; [|done].
    apply insert_parts_idem.
  - intros path l1 l2 l3. apply render_ext. intros x.
    rewrite !elem_of_app, !elem_of_cons, !elem_of_app, !elem_of_cons. tauto.
Qed.

(** C7: at every node of the tree built from the input, the root
    included, the names printed for its children are its keys in strict
    lexicographic order; what is printed is, name by name in that order,
    the line of the child followed at once by the lines of the child's
    subtree, so the line of a node comes before the lines of all its
    descendants. *)
Theorem C7_sorted_preorder (paths p : list string) (node : tree) :
  descend (build_tree (Py.sorted paths)) p = Some node →
  let level := length p in
  ∃ names,
    (∀ k, k ∈ names ↔ k ∈ keys node)
    ∧ StronglySorted (strict String.le) names
    ∧ print_node node level [] = flat_map (block node level) names
    ∧ (∀ name, name ∈ names →
         ∃ child, getitem node name = Some child
           ∧ block node level name =
             entry_line level name (truthy child)
             :: print_node child (level + 1) [])
    ∧ (∀ q name child,
         descend node (q ++ [name]) = Some child →
         ∃ before after,
           print_node node level [] =
           before
           ++ entry_line (level + length q) name (truthy child)
              :: print_node child (level + length q + 1) []
           ++ after).
Proof.
  intros Hd level. exists (Py.sorted (keys node)).
  assert (Hwf : wf node) by (eapply wf_descend; [apply wf_build_tree|done]).
  split; [apply sorted_elem|]. split; [by apply sorted_keys_strict|].
  split; [apply print_node_blocks|]. split.
  - intros name Hin. apply sorted_elem, getitem_is_Some in Hin as [child E].
    exists child. split; [done|]. by rewrite block_eq, E.
  - intros q name child Hq. by apply print_node_at.
Qed.

Lemma C7_sorted_preorder_witness :
  let node := Dict [("A", Dict [("x.txt", Dict []); ("y.txt", Dict [])]);
                    ("B", Dict [("z.txt", Dict [])])] in
  ∃ names,
    (∀ k, k ∈ names ↔ k ∈ keys node)
    ∧ StronglySorted (strict String.le) names
    ∧ print_node node 1 [] = flat_map (block node 1) names
    ∧ (∀ name, name ∈ names →
         ∃ child, getitem node name = Some child
           ∧ block node 1 name =
             entry_line 1 name (truthy child) :: print_node child (1 + 1) [])
    ∧ (∀ q name child,
         descend node (q ++ [name]) = Some child →
         ∃ before after,
           print_node node 1 [] =
           before
           ++ entry_line (1 + length q) name (truthy child)
              :: print_node child (1 + length q + 1) []
           ++ after).
Proof.
  intros node.
  apply (C7_sorted_preorder scenario ["PROJECT INSTRUCTIONS"] node).
  vm_compute. reflexivity.
Defined.

(** C8: when the input file has no non-blank line, the program writes the
    empty string to the output file and prints the success message; the
    empty file is such an input. *)
Theorem C8_empty_input (w : world) (content : string) :
  files w !! INPUT_FILE = Some content →
  read_paths content = [] →
  generate_tree w =
    World (<[OUTPUT_FILE := ""]> (files w))
          (console w ++ ["Tree generated in project_instructions_tree.md"])
  ∧ print_node (build_tree (Py.sorted (read_paths content))) 0 [] = []
  ∧ read_paths "" = [].
Proof.
  intros Hfile Hpaths. unfold generate_tree. rewrite Hfile, Hpaths. done.
Qed.

Lemma C8_empty_input_witness :
  let content := "  " +:+ NL +:+ NL in
  let w := World (<[INPUT_FILE := content]> ∅) [] in
  generate_tree w =
    World (<[OUTPUT_FILE := ""]> (files w))
          (console w ++ ["Tree generated in project_instructions_tree.md"])
  ∧ print_node (build_tree (Py.sorted (read_paths content))) 0 [] = []
  ∧ read_paths "" = [].
Proof.
  intros content w. apply (C8_empty_input w content); reflexivity.
Defined.

(** C9, as the specification states it, fails: the retained line
    "PROJECT INSTRUCTIONS//a" has an empty segment, and the node of that
    name is created and rendered as the line "- **/**". *)
Lemma C9_empty_segment_counterexample :
  let line := "PROJECT INSTRUCTIONS//a" in
  read_paths line = [line]
  ∧ ¬ (∀ seg, seg ∈ Py.split SLASH line → seg ≠ "")
  ∧ print_node (build_tree (Py.sorted (read_paths line))) 0 []
    = ["# PROJECT INSTRUCTIONS"; "- **/**"; "  - a"].
Proof.
  intros line. split; [by vm_compute|]. split; [|by vm_compute].
  intros H. apply (H ""); [|done].
  apply list_elem_of_In. vm_compute. right. left. reflexivity.
Qed.

(** C9, amended: the segments of a line are what lies between its "/":
    none contains "/" and joined by "/" they give the line back; they are
    all non-empty exactly when the line is not empty, neither starts nor
    ends with "/" and has no two "/" in a row.  The output is, node by
    node, the list of the lines of the nodes of the tree, each node once,
    and the tree has a node of the empty name, with its line in the output,
    exactly when some loaded line has an empty segment at or after its
    first anchor; empty segments before the anchor do not count. *)
Theorem C9_segments (paths : list string) :
  (∀ line,
     Py.join "/" (Py.split SLASH line) = line
     ∧ (∀ seg, seg ∈ Py.split SLASH line → SLASH ∉ list_ascii_of_string seg)
     ∧ ((∀ seg, seg ∈ Py.split SLASH line → seg ≠ "") ↔ well_slashed line))
  ∧ (let root := build_tree (Py.sorted paths) in
     print_node root 0 [] = map (line_at root 0) (node_paths root)
     ∧ NoDup (node_paths root)
     ∧ (∀ p, p ∈ node_paths root ↔ p ≠ [] ∧ is_Some (descend root p))
     ∧ ((∃ p, p ∈ node_paths root ∧ last p = Some "") ↔
        (∃ path parts,
           path ∈ paths ∧ rel_parts path = Some parts ∧ "" ∈ parts))).
Proof.
  split.
  { intros line. split; [apply join_split|].
    split; [intros seg; apply split_no_sep|apply split_segments_nonempty]. }
  intros root. split; [apply print_node_node_paths|].
  split; [apply NoDup_node_paths, wf_build_tree|].
  split; [apply elem_of_node_paths|]. split.
  - intros (p & [Hne Hp]%elem_of_node_paths & Hlast).
    unfold root, build_tree in Hp.
    apply descend_fold_add_path in Hp
      as [Hp|(path & parts & Hpath & Hrel & [rest ->])].
    { destruct p as [|k p]; [done|]. simpl in Hp. by destruct Hp. }
    exists path, (p ++ rest).
    split; [by apply (proj1 (sorted_elem _ _))|]. split; [done|].
    apply elem_of_app. left. by apply last_Some_elem_of.
  - intros (path & parts & Hpath & Hrel & Hin).
    apply list_elem_of_split in Hin as (l1 & l2 & ->).
    exists (l1 ++ [""]). split; [|apply last_snoc].
    apply elem_of_node_paths. split; [by destruct l1|].
    unfold root, build_tree. apply descend_fold_add_path. right.
    exists path, (l1 ++ "" :: l2). split; [by apply sorted_elem|].
    split; [done|]. exists l2. by rewrite <- app_assoc.
Qed.

Lemma C9_segments_witness :
  let root := build_tree (Py.sorted ["/home/kids/PROJECT INSTRUCTIONS/A"]) in
  ¬ well_slashed "/home/kids/PROJECT INSTRUCTIONS/A"
  ∧ node_paths root = [["PROJECT INSTRUCTIONS"]; ["PROJECT INSTRUCTIONS"; "A"]]
  ∧ ¬ (∃ p, p ∈ node_paths root ∧ last p = Some "").
Proof.
  intros root. split; [|split; [by vm_compute|]].
  - intros (_ & Hlead & _). by apply (Hlead "home/kids/PROJECT INSTRUCTIONS/A").
  - intros H.
    apply (proj2 (C9_segments ["/home/kids/PROJECT INSTRUCTIONS/A"])) in H
      as (path & parts & ->%list_elem_of_singleton & [= <-] & Hin).
    apply list_elem_of_In in Hin. vm_compute in Hin.
    intuition discriminate.
Defined.

(** C10, as the specification states it, fails when the shorter path is
    the anchor alone: its segment is printed as the heading
    "# PROJECT INSTRUCTIONS", and no line of the output carries the
    directory marker for it. *)
Lemma C10_anchor_alone_counterexample :
  let paths := ["PROJECT INSTRUCTIONS"; "PROJECT INSTRUCTIONS/A"] in
  rel_parts "PROJECT INSTRUCTIONS" = Some ["PROJECT INSTRUCTIONS"]
  ∧ rel_parts "PROJECT INSTRUCTIONS/A" = Some ["PROJECT INSTRUCTIONS"; "A"]
  ∧ print_node (build_tree (Py.sorted paths)) 0 []
    = ["# PROJECT INSTRUCTIONS"; "- A"]
  ∧ ¬ (∃ indent,
         indent +:+ "- **PROJECT INSTRUCTIONS/**"
         ∈ print_node (build_tree (Py.sorted paths)) 0 []).
Proof.
  intros paths. split; [by vm_compute|]. split; [by vm_compute|].
  assert (Hout : print_node (build_tree (Py.sorted paths)) 0 []
                 = ["# PROJECT INSTRUCTIONS"; "- A"]) by (by vm_compute).
  split; [done|]. rewrite Hout. intros [indent Hin].
  rewrite !elem_of_cons, elem_of_nil in Hin.
  destruct Hin as [H|[H|[]]]; apply (f_equal String.length) in H;
    rewrite app_length in H; simpl in H; lia.
Qed.

(** C10, amended: when the segment sequence of one input path is a proper
    prefix of that of another, the node of its last segment has a child and
    is printed by one entry of its parent, followed at once by the lines of
    its subtree: no other entry of the parent bears its name.  That entry is
    the directory line "<indent>- **<name>/**" when the shorter sequence has
    a segment after the anchor, and the heading "# <name>" when it is the
    anchor alone. *)
Theorem C10_prefix_directory (paths : list string) (path1 path2 : string)
    (parts1 parts2 : list string) :
  path1 ∈ paths → path2 ∈ paths →
  rel_parts path1 = Some parts1 → rel_parts path2 = Some parts2 →
  parts1 `prefix_of` parts2 → parts1 ≠ parts2 →
  let root := build_tree (Py.sorted paths) in
  ∃ pre name parent child,
    parts1 = pre ++ [name]
    ∧ descend root pre = Some parent
    ∧ getitem parent name = Some child
    ∧ truthy child = true
    ∧ (∃ names1 names2,
         Py.sorted (keys parent) = names1 ++ name :: names2
         ∧ (name ∉ names1) ∧ (name ∉ names2)
         ∧ print_node parent (length pre) [] =
           flat_map (block parent (length pre)) names1
           ++ (entry_line (length pre) name true
               :: print_node child (length pre + 1) [])
           ++ flat_map (block parent (length pre)) names2)
    ∧ (∃ before after,
         print_node root 0 [] =
         before
         ++ entry_line (length pre) name true
            :: print_node child (length pre + 1) []
         ++ after)
    ∧ entry_line (length pre) name true =
      match pre with
      | [] => "# " +:+ name
      | _ :: _ =>
          Py.repeat_str "  " (length pre - 1) +:+ "- **" +:+ name +:+ "/**"
      end.
Proof.
  intros Hin1 Hin2 Hrel1 Hrel2 [rest Hrest] Hne root.
  destruct rest as [|k rest]; [by rewrite app_nil_r in Hrest|].
  assert (Hsome : is_Some (descend root (parts1 ++ [k]))).
  { unfold root, build_tree. apply descend_fold_add_path. right.
    exists path2, parts2. split; [by apply sorted_elem|]. split; [done|].
    exists rest. rewrite Hrest, <- app_assoc. done. }
  rewrite descend_app in Hsome.
  destruct (descend root parts1) as [child|] eqn:Hchild;
    [|by destruct Hsome].
  assert (Htruthy : truthy child = true).
  { apply truthy_keys. exists k. by apply descend_singleton. }
  apply rel_parts_Some in Hrel1 as (pre1 & suf1 & _ & _ & Hparts1).
  destruct parts1 as [|name pre _] using rev_ind; [done|].
  rewrite descend_app in Hchild.
  destruct (descend root pre) as [parent|] eqn:Hparent; [|done].
  simpl in Hchild.
  destruct (getitem parent name) as [c|] eqn:Hget; [|done].
  injection Hchild as ->.
  exists pre, name, parent, child. do 4 (split; [done|]).
  assert (Hwf : wf parent) by (eapply wf_descend; [apply wf_build_tree|done]).
  split; [|split].
  - assert (Hk : name ∈ Py.sorted (keys parent)).
    { apply sorted_elem, getitem_is_Some. by eexists. }
    apply list_elem_of_split in Hk as (names1 & names2 & Hnames).
    assert (Hnd : NoDup (names1 ++ name :: names2)).
    { rewrite <- Hnames, sorted_Permutation. by apply wf_keys. }
    apply NoDup_app in Hnd as (_ & Hdisj & [Hn2 _]%NoDup_cons).
    exists names1, names2. split; [done|]. split.
    { intros Hn1. apply (Hdisj name Hn1), list_elem_of_here. }
    split; [done|].
    rewrite print_node_blocks, Hnames, flat_map_app. simpl.
    by rewrite block_eq, Hget, Htruthy.
  - destruct (print_node_at pre root 0 name child) as (before & after & Hout).
    { rewrite descend_app, Hparent. simpl. by rewrite Hget. }
    exists before, after. by rewrite Hout, Htruthy.
  - unfold entry_line. by destruct pre.
Qed.

Lemma C10_prefix_directory_witness :
  let paths := ["PROJECT INSTRUCTIONS/A"; "PROJECT INSTRUCTIONS/A/x.txt"] in
  let root := build_tree (Py.sorted paths) in
  ∃ pre name parent child,
    ["PROJECT INSTRUCTIONS"; "A"] = pre ++ [name]
    ∧ descend root pre = Some parent
    ∧ getitem parent name = Some child
    ∧ truthy child = true
    ∧ (∃ names1 names2,
         Py.sorted (keys parent) = names1 ++ name :: names2
         ∧ (name ∉ names1) ∧ (name ∉ names2)
         ∧ print_node parent (length pre) [] =
           flat_map (block parent (length pre)) names1
           ++ (entry_line (length pre) name true
               :: print_node child (length pre + 1) [])
           ++ flat_map (block parent (length pre)) names2)
    ∧ (∃ before after,
         print_node root 0 [] =
         before
         ++ entry_line (length pre) name true
            :: print_node child (length pre + 1) []
         ++ after)
    ∧ entry_line (length pre) name true =
      match pre with
      | [] => "# " +:+ name
      | _ :: _ =>
          Py.repeat_str "  " (length pre - 1) +:+ "- **" +:+ name +:+ "/**"
      end.
Proof.
  intros paths.
  apply (C10_prefix_directory paths
           "PROJECT INSTRUCTIONS/A" "PROJECT INSTRUCTIONS/A/x.txt"
           ["PROJECT INSTRUCTIONS"; "A"]
           ["PROJECT INSTRUCTIONS"; "A"; "x.txt"]).
  - apply list_elem_of_here.
  - apply list_elem_of_further, list_elem_of_here.
  - reflexivity.
  - reflexivity.
  - exists ["x.txt"]. reflexivity.
  - discriminate.
Defined.

(** * Further properties of the script *)

(** ** The tree holds the prefixes of the entries, and nothing else *)

Lemma descend_empty p : is_Some (descend (Dict []) p) → p = [].
Proof. destruct p as [|k p]; [done|]. simpl. by intros [? ?]. Qed.

Lemma descend_build_tree paths p :
  is_Some (descend (build_tree (Py.sorted paths)) p) ↔
  p = [] ∨ ∃ path parts,
    path ∈ paths ∧ rel_parts path = Some parts ∧ p `prefix_of` parts.
Proof.
  unfold build_tree. rewrite descend_fold_add_path. split.
  - intros [->%descend_empty|(path & parts & Hin & ? & ?)]; [by left|].
    right. exists path, parts. split; [by apply (proj1 (sorted_elem _ _))|done].
  - intros [->|(path & parts & Hin & ? & ?)]; [left; by eexists|].
    right. exists path, parts. split; [by apply sorted_elem|done].
Qed.

(** X1: the nodes of the tree built from the input are exactly the
    prefixes of the normalized entries (the root being the empty prefix),
    and a node is a directory, a dict with a key, exactly when some entry
    goes on beyond it. *)
Theorem X1_tree_is_prefix_closure (paths p : list string) :
  let root := build_tree (Py.sorted paths) in
  (is_Some (descend root p) ↔
     p = [] ∨ ∃ path parts,
       path ∈ paths ∧ rel_parts path = Some parts ∧ p `prefix_of` parts)
  ∧ (∀ node, descend root p = Some node →
       (truthy node = true ↔
          ∃ path parts,
            path ∈ paths ∧ rel_parts path = Some parts
            ∧ p `prefix_of` parts ∧ p ≠ parts)).
Proof.
  intros root. split; [apply descend_build_tree|].
  intros node Hnode. rewrite truthy_keys. split.
  - intros [k Hk]. apply descend_singleton in Hk.
    assert (Hpk : is_Some (descend root (p ++ [k]))).
    { by rewrite descend_app, Hnode. }
    apply descend_build_tree in Hpk as [Hnil|(path & parts & ? & ? & Hpre)].
    { by destruct p. }
    exists path, parts. do 2 (split; [done|]). split.
    + by eapply prefix_app_l.
    + intros ->. by apply prefix_snoc_not in Hpre.
  - intros (path & parts & Hin & Hrel & [rest ->] & Hne).
    destruct rest as [|k rest]; [by rewrite app_nil_r in Hne|].
    exists k. apply descend_singleton.
    assert (Hpk : is_Some (descend root (p ++ [k]))).
    { apply descend_build_tree. right. exists path, (p ++ k :: rest).
      do 2 (split; [done|]). exists rest. by rewrite <- app_assoc. }
    by rewrite descend_app, Hnode in Hpk.
Qed.

(** ** The synthetic root has one heading at most *)

Lemma keys_build_tree paths k :
  k ∈ keys (build_tree (Py.sorted paths)) → k = ROOT_NAME.
Proof.
  intros Hk%descend_singleton.
  apply descend_build_tree in Hk as [?|(path & parts & _ & Hrel & Hpre)];
    [done|].
  apply rel_parts_Some in Hrel as (pre & suf & _ & _ & ->).
  by apply prefix_cons_inv_1 in Hpre.
Qed.

Lemma join_nonempty sep x l : x ≠ "" → Py.join sep (x :: l) ≠ "".
Proof.
  intros Hx. destruct l as [|y l]; [done|]. rewrite join_cons by done.
  intros H. apply (f_equal String.length) in H.
  rewrite app_length in H. simpl in H.
  destruct x; [done|]. simpl in H. lia.
Qed.

(** X2: the root of the tree built from the input has no key but the
    anchor.  When no input path has the anchor the tree is empty and the
    empty string is written; when one has, the root has the anchor as its
    only key, the output starts with the heading "# PROJECT INSTRUCTIONS",
    followed by the lines of the subtree printed at level 1, and the text
    written is not empty. *)
Theorem X2_single_heading (paths : list string) :
  let root := build_tree (Py.sorted paths) in
  (∀ k, k ∈ keys root → k = ROOT_NAME)
  ∧ ((∀ path, path ∈ paths → ROOT_NAME ∉ Py.split SLASH path) →
     root = Dict [] ∧ print_node root 0 [] = [] ∧ render paths = "")
  ∧ ((∃ path, path ∈ paths ∧ ROOT_NAME ∈ Py.split SLASH path) →
     ∃ child,
       root = Dict [(ROOT_NAME, child)]
       ∧ print_node root 0 [] =
         "# PROJECT INSTRUCTIONS" :: print_node child 1 []
       ∧ render paths ≠ "").
Proof.
  intros root.
  pose proof (descend_build_tree paths) as Hdesc.
  pose proof (wf_keys _ (wf_build_tree (Py.sorted paths))) as Hnd.
  pose proof (keys_build_tree paths) as Hkeys.
  assert (Hrender : render paths = Py.join NL (print_node root 0 []))
    by reflexivity.
  fold root in Hdesc, Hnd, Hkeys. clearbody root.
  split; [done|]. split.
  - intros Hno. assert (Hroot : root = Dict []).
    { destruct root as [[|[k c] its]]; [done|]. exfalso.
      assert (Hk : is_Some (descend (Dict ((k, c) :: its)) [k])).
      { apply descend_singleton, list_elem_of_here. }
      apply Hdesc in Hk as [?|(path & parts & Hin & Hrel & _)]; [done|].
      apply Hno, rel_parts_None in Hin. congruence. }
    rewrite Hrender, Hroot. done.
  - intros (path & Hin & Hanchor).
    destruct (rel_parts path) as [parts|] eqn:Hrel;
      [|by apply rel_parts_None in Hrel].
    assert (Hk : is_Some (descend root [ROOT_NAME])).
    { apply Hdesc. right. exists path, parts. do 2 (split; [done|]).
      apply rel_parts_Some in Hrel as (pre & suf & _ & _ & ->).
      by exists suf. }
    destruct root as [[|[k c] its]].
    { simpl in Hk. by destruct Hk. }
    assert (k = ROOT_NAME) as -> by apply Hkeys, list_elem_of_here.
    destruct its as [|[k' c'] its].
    + exists c. split; [done|].
      assert (Hlines : print_node (Dict [(ROOT_NAME, c)]) 0 [] =
                       "# PROJECT INSTRUCTIONS" :: print_node c 1 []).
      { rewrite print_node_blocks. simpl. rewrite app_nil_r.
        rewrite block_eq. unfold getitem. simpl. done. }
      split; [done|]. rewrite Hrender, Hlines. by apply join_nonempty.
    + exfalso. assert (k' = ROOT_NAME) as ->.
      { apply Hkeys, list_elem_of_further, list_elem_of_here. }
      unfold keys in Hnd. simpl in Hnd.
      apply NoDup_cons in Hnd as [Hnot _].
      apply Hnot, list_elem_of_here.
Qed.

(** ** Every node is printed once *)

Lemma assoc_NoDup {A : Type} k (v : A) l :
  NoDup (map fst l) → (k, v) ∈ l → assoc k l = Some v.
Proof.
  induction l as [|[k0 v0] l IH]; simpl; intros Hnd Hin.
  - by apply elem_of_nil in Hin.
  - apply NoDup_cons in Hnd as [Hk0 Hnd].
    apply elem_of_cons in Hin as [[= -> ->]|Hin].
    + by rewrite decide_True by done.
    + destruct (decide (k0 = k)) as [->|]; [|by apply IH].
      exfalso. apply Hk0. apply list_elem_of_fmap. by exists (k, v).
Qed.

Lemma length_flat_map_sum {A B : Type} (f : A → list B) l :
  length (flat_map f l) = sum_list_with (λ x, length (f x)) l.
Proof.
  induction l as [|x l IH]; simpl; [done|]. by rewrite length_app, IH.
Qed.

Lemma sum_list_with_ext_in {A : Type} (f g : A → nat) l :
  (∀ x, x ∈ l → f x = g x) → sum_list_with f l = sum_list_with g l.
Proof.
  induction l as [|x l IH]; simpl; intros H; [done|].
  rewrite H, IH; [done| |apply list_elem_of_here].
  intros y Hy. by apply H, list_elem_of_further.
Qed.

Lemma sum_list_with_map {A B : Type} (f : B → nat) (g : A → B) l :
  sum_list_with f (map g l) = sum_list_with (λ x, f (g x)) l.
Proof. induction l as [|x l IH]; simpl; [done|]. by rewrite IH. Qed.

Lemma print_node_length node :
  ∀ level, wf node → length (print_node node level []) = tree_size node.
Proof.
  induction node as [its IH] using tree_ind. intros level Hwf.
  rewrite print_node_blocks. simpl app.
  rewrite length_flat_map_sum, sorted_Permutation.
  unfold keys. simpl. rewrite sum_list_with_map.
  apply sum_list_with_ext_in. intros [k c] Hin. simpl.
  rewrite block_eq. unfold getitem. simpl.
  rewrite (assoc_NoDup k c its); [|by apply (wf_keys _ Hwf)|done].
  simpl. f_equal. rewrite Forall_forall in IH.
  apply (IH (k, c) Hin). apply (wf_items _ (k, c) Hwf Hin).
Qed.

(** X3: at every node of the tree built from the input, the lines that
    one call of [print_node] appends are, one for one and in this order,
    the lines of the nodes below it, listed without repetition and none
    left out: every node is printed once, none twice, and there are as many
    lines as nodes. *)
Theorem X3_one_line_per_node (paths p : list string) (node : tree)
    (level : nat) :
  descend (build_tree (Py.sorted paths)) p = Some node →
  print_node node level [] = map (line_at node level) (node_paths node)
  ∧ NoDup (node_paths node)
  ∧ (∀ q, q ∈ node_paths node ↔ q ≠ [] ∧ is_Some (descend node q))
  ∧ length (print_node node level []) = tree_size node.
Proof.
  intros Hd.
  assert (Hwf : wf node) by (eapply wf_descend; [apply wf_build_tree|done]).
  split; [apply print_node_node_paths|].
  split; [by apply NoDup_node_paths|].
  split; [apply elem_of_node_paths|]. by apply print_node_length.
Qed.

Lemma X3_one_line_per_node_witness :
  let node := build_tree (Py.sorted scenario) in
  print_node node 0 [] = map (line_at node 0) (node_paths node)
  ∧ NoDup (node_paths node)
  ∧ (∀ q, q ∈ node_paths node ↔ q ≠ [] ∧ is_Some (descend node q))
  ∧ length (print_node node 0 []) = tree_size node.
Proof.
  intros node. apply (X3_one_line_per_node scenario [] node 0). reflexivity.
Defined.

(** ** What one insertion changes *)

Lemma keys_setitem t k v :
  keys (setitem t k v) =
  if contains t k then keys t else keys t ++ [k].
Proof.
  unfold keys, setitem, contains, getitem. simpl. rewrite assoc_set_keys.
  by destruct (assoc k (items t)).
Qed.

(** X4: inserting a segment sequence into any tree adds the nodes of its
    prefixes and nothing else, and removes nothing; in the dict it starts
    from, the keys that were there keep their order and at most one key is
    added, after them. *)
Theorem X4_insert_only_adds (parts : list string) (t : tree) :
  (∀ p, is_Some (descend (insert_parts parts t) p) ↔
        is_Some (descend t p) ∨ p `prefix_of` parts)
  ∧ keys t `prefix_of` keys (insert_parts parts t)
  ∧ length (keys (insert_parts parts t)) ≤ S (length (keys t)).
Proof.
  split; [intros p; apply descend_insert_parts|].
  destruct parts as [|part rest]; [split; [done|simpl; lia]|].
  rewrite insert_parts_cons, keys_setitem.
  destruct (contains t part); [split; [done|lia]|].
  split; [by apply prefix_app_r|]. rewrite length_app. simpl. lia.
Qed.

(** ** The files that a run touches *)

Lemma INPUT_OUTPUT_distinct : INPUT_FILE ≠ OUTPUT_FILE.
Proof. discriminate. Qed.

(** X5: a run changes no file but the output file, the input file in
    particular; what it writes does not depend on what the output file
    held, and a second run leaves the files as the first one did. *)
Theorem X5_only_output_written (w : world) :
  (∀ f, f ≠ OUTPUT_FILE → files (generate_tree w) !! f = files w !! f)
  ∧ files (generate_tree w) !! INPUT_FILE = files w !! INPUT_FILE
  ∧ (∀ old,
       files (generate_tree (World (<[OUTPUT_FILE := old]> (files w))
                                   (console w)))
       !! OUTPUT_FILE
       = if files w !! INPUT_FILE is Some _
         then files (generate_tree w) !! OUTPUT_FILE else Some old)
  ∧ files (generate_tree (generate_tree w)) = files (generate_tree w).
Proof.
  pose proof INPUT_OUTPUT_distinct as Hio.
  assert (Hother : ∀ f, f ≠ OUTPUT_FILE →
                        files (generate_tree w) !! f = files w !! f).
  { intros f Hf. unfold generate_tree.
    destruct (files w !! INPUT_FILE); simpl; [|done].
    by rewrite lookup_insert_ne. }
  split; [done|]. split; [by apply Hother|]. split.
  - intros old. unfold generate_tree. simpl.
    rewrite lookup_insert_ne by done.
    destruct (files w !! INPUT_FILE); simpl.
    + by rewrite !lookup_insert_eq.
    + by rewrite lookup_insert_eq.
  - unfold generate_tree at 1. rewrite Hother by done.
    unfold generate_tree.
    destruct (files w !! INPUT_FILE); simpl; [|done].
    by rewrite insert_insert_eq.
Qed.

(** ** Stripping *)

Lemma chars_app s1 s2 :
  list_ascii_of_string (s1 +:+ s2) =
  list_ascii_of_string s1 ++ list_ascii_of_string s2.
Proof.
  induction s1 as [|a s1 IH]; [done|]. rewrite app_String. simpl.
  by rewrite IH.
Qed.

Lemma lstrip_chars s c :
  c ∈ list_ascii_of_string (Py.lstrip s) → c ∈ list_ascii_of_string s.
Proof.
  induction s as [|a s IH]; simpl; [done|].
  destruct (Py.isspace a); [|done].
  intros H. by apply list_elem_of_further, IH.
Qed.

Lemma lstrip_head s c r : Py.lstrip s = String c r → Py.isspace c = false.
Proof.
  induction s as [|a s IH]; simpl; [done|].
  destruct (Py.isspace a) eqn:E; [done|]. by intros [= <- _].
Qed.

Lemma lstrip_all_space s :
  Py.lstrip s = "" ↔ ∀ c, c ∈ list_ascii_of_string s → Py.isspace c = true.
Proof.
  induction s as [|a s IH]; simpl.
  - split; [|done]. intros _ c Hc. by apply elem_of_nil in Hc.
  - destruct (Py.isspace a) eqn:E.
    + rewrite IH. split.
      * intros H c [->|Hc]%elem_of_cons; [done|by apply H].
      * intros H c Hc. by apply H, list_elem_of_further.
    + split; [done|]. intros H.
      specialize (H a (list_elem_of_here _ _)). congruence.
Qed.

Lemma lstrip_app s1 s2 :
  Py.lstrip (s1 +:+ s2) =
  match Py.lstrip s1 with
  | EmptyString => Py.lstrip s2
  | String c r => String c r +:+ s2
  end.
Proof.
  induction s1 as [|a s1 IH]; [done|]. rewrite app_String. simpl.
  by destruct (Py.isspace a).
Qed.

Lemma rstrip_chars s c :
  c ∈ list_ascii_of_string (Py.rstrip s) → c ∈ list_ascii_of_string s.
Proof.
  revert c. induction s as [|a s IH]; intros c; simpl; [done|].
  destruct (Py.rstrip s) as [|b t].
  - destruct (Py.isspace a); simpl.
    + intros H. by apply elem_of_nil in H.
    + intros ->%list_elem_of_singleton. apply list_elem_of_here.
  - simpl. intros [->|H]%elem_of_cons; [apply list_elem_of_here|].
    by apply list_elem_of_further, IH.
Qed.

Lemma rstrip_snoc_space s c :
  Py.isspace c = true → Py.rstrip (s +:+ String c "") = Py.rstrip s.
Proof.
  intros Hc. induction s as [|a s IH].
  - change ("" +:+ String c "") with (String c ""). simpl. by rewrite Hc.
  - rewrite app_String. simpl. by rewrite IH.
Qed.

Lemma rstrip_idem s : Py.rstrip (Py.rstrip s) = Py.rstrip s.
Proof.
  induction s as [|a s IH]; simpl; [done|].
  destruct (Py.rstrip s) as [|b t] eqn:E.
  - destruct (Py.isspace a) eqn:Ea; simpl; [done|]. by rewrite Ea.
  - simpl in *. by rewrite IH.
Qed.

Lemma rstrip_nonspace_head c r :
  Py.isspace c = false → ∃ r', Py.rstrip (String c r) = String c r'.
Proof.
  intros Hc. simpl. destruct (Py.rstrip r) as [|b t]; rewrite ?Hc; eauto.
Qed.

Lemma rstrip_last s r c :
  Py.rstrip s = r +:+ String c "" → Py.isspace c = false.
Proof.
  revert r. induction s as [|a s IH]; intros r; simpl.
  - destruct r; done.
  - destruct (Py.rstrip s) as [|b t] eqn:E.
    + destruct (Py.isspace a) eqn:Ea; [by destruct r|].
      destruct r as [|a' r]; [by intros [= <-]|].
      rewrite app_String. intros [= _ H]. by destruct r.
    + destruct r as [|a' r]; [done|].
      rewrite app_String. intros [= _ H]. by apply (IH r).
Qed.

Lemma rstrip_nonempty s c :
  c ∈ list_ascii_of_string s → Py.isspace c = false → Py.rstrip s ≠ "".
Proof.
  induction s as [|a s IH]; simpl; [by intros ?%elem_of_nil|].
  intros [->|Hc]%elem_of_cons Hsp.
  - destruct (Py.rstrip s); [by rewrite Hsp|done].
  - specialize (IH Hc Hsp). by destruct (Py.rstrip s).
Qed.

Lemma strip_chars s c :
  c ∈ list_ascii_of_string (Py.strip s) → c ∈ list_ascii_of_string s.
Proof. intros H. by apply lstrip_chars, rstrip_chars. Qed.

Lemma strip_idem s : Py.strip (Py.strip s) = Py.strip s.
Proof.
  unfold Py.strip. destruct (Py.lstrip s) as [|c r] eqn:E; [done|].
  pose proof (lstrip_head _ _ _ E) as Hc.
  destruct (rstrip_nonspace_head c r Hc) as [r' Hr]. rewrite Hr.
  simpl Py.lstrip. rewrite Hc, <- Hr. apply rstrip_idem.
Qed.

Lemma strip_head s c r : Py.strip s = String c r → Py.isspace c = false.
Proof.
  unfold Py.strip. destruct (Py.lstrip s) as [|a t] eqn:E; [done|].
  pose proof (lstrip_head _ _ _ E) as Ha.
  destruct (rstrip_nonspace_head a t Ha) as [r' ->]. by intros [= <- _].
Qed.

Lemma strip_snoc_space s c :
  Py.isspace c = true → Py.strip (s +:+ String c "") = Py.strip s.
Proof.
  intros Hc. unfold Py.strip. rewrite lstrip_app.
  destruct (Py.lstrip s) as [|a t]; [simpl; by rewrite Hc|].
  by apply rstrip_snoc_space.
Qed.

Lemma strip_nonempty s c :
  c ∈ list_ascii_of_string s → Py.isspace c = false → Py.strip s ≠ "".
Proof.
  intros Hc Hsp. unfold Py.strip.
  destruct (Py.lstrip s) as [|a t] eqn:E.
  - pose proof (proj1 (lstrip_all_space s) E c Hc). congruence.
  - apply (rstrip_nonempty _ a); [apply list_elem_of_here|].
    by apply lstrip_head in E.
Qed.

Lemma strip_all_space s :
  (∀ c, c ∈ list_ascii_of_string s → Py.isspace c = true) → Py.strip s = "".
Proof.
  intros H. unfold Py.strip. by rewrite (proj2 (lstrip_all_space s) H).
Qed.

(** ** The lines of a file *)

Lemma LF_space : Py.isspace Py.LF = true.
Proof. reflexivity. Qed.

Lemma CR_space : Py.isspace Py.CR = true.
Proof. reflexivity. Qed.

(** A line is a body without line break, with or without the terminator. *)
Lemma file_lines_shape content l :
  l ∈ Py.file_lines content →
  ∃ body,
    (l = body ∨ l = body +:+ String Py.LF "")
    ∧ (Py.LF ∉ list_ascii_of_string body)
    ∧ (Py.CR ∉ list_ascii_of_string body)
    ∧ ∀ c, c ∈ list_ascii_of_string body → c ∈ list_ascii_of_string content.
Proof.
  revert l.
  cut ((∀ l, l ∈ Py.file_lines content →
          ∃ body, (l = body ∨ l = body +:+ String Py.LF "")
            ∧ (Py.LF ∉ list_ascii_of_string body)
            ∧ (Py.CR ∉ list_ascii_of_string body)
            ∧ ∀ c, c ∈ list_ascii_of_string body →
                   c ∈ list_ascii_of_string content)
       ∧ (∀ a r, content = String a r → ∀ l, l ∈ Py.file_lines r →
          ∃ body, (l = body ∨ l = body +:+ String Py.LF "")
            ∧ (Py.LF ∉ list_ascii_of_string body)
            ∧ (Py.CR ∉ list_ascii_of_string body)
            ∧ ∀ c, c ∈ list_ascii_of_string body →
                   c ∈ list_ascii_of_string r)).
  { by intros [H _]. }
  induction content as [|a s [IH1 IH2]].
  { split; [|done]. intros l Hl. by apply elem_of_nil in Hl. }
  split; [|by intros ? ? [= <- <-]].
  assert (Hterm : ∃ body, (String Py.LF "" = body
                           ∨ String Py.LF "" = body +:+ String Py.LF "")
            ∧ (Py.LF ∉ list_ascii_of_string body)
            ∧ (Py.CR ∉ list_ascii_of_string body)
            ∧ ∀ c, c ∈ list_ascii_of_string body →
                   c ∈ list_ascii_of_string (String a s)).
  { exists "". split; [by right|]. simpl.
    split; [apply not_elem_of_nil|]. split; [apply not_elem_of_nil|].
    intros c Hc. by apply elem_of_nil in Hc. }
  assert (Hweak : ∀ l, l ∈ Py.file_lines s →
            ∃ body, (l = body ∨ l = body +:+ String Py.LF "")
            ∧ (Py.LF ∉ list_ascii_of_string body)
            ∧ (Py.CR ∉ list_ascii_of_string body)
            ∧ ∀ c, c ∈ list_ascii_of_string body →
                   c ∈ list_ascii_of_string (String a s)).
  { intros l Hl. destruct (IH1 l Hl) as (body & ? & ? & ? & Hsub).
    exists body. do 3 (split; [done|]). intros c Hc. simpl.
    by apply list_elem_of_further, Hsub. }
  intros l. simpl. destruct (decide (a = Py.LF)) as [->|HLF].
  { intros [->|Hl]%elem_of_cons; [done|by apply Hweak]. }
  destruct (decide (a = Py.CR)) as [->|HCR].
  { destruct s as [|c' r'].
    - by intros ->%list_elem_of_singleton.
    - destruct (decide (c' = Py.LF)) as [->|].
      + intros [->|Hl]%elem_of_cons; [done|].
        destruct (IH2 _ _ eq_refl l Hl) as (body & ? & ? & ? & Hsub).
        exists body. do 3 (split; [done|]). intros c Hc. simpl.
        by apply list_elem_of_further, list_elem_of_further, Hsub.
      + intros [->|Hl]%elem_of_cons; [done|by apply Hweak]. }
  destruct (Py.file_lines s) as [|h t] eqn:E.
  { intros ->%list_elem_of_singleton. exists (String a "").
    split; [by left|]. simpl.
    split; [by apply not_elem_of_cons; split; [congruence|apply not_elem_of_nil]|].
    split; [by apply not_elem_of_cons; split; [congruence|apply not_elem_of_nil]|].
    intros c ->%list_elem_of_singleton. apply list_elem_of_here. }
  intros [->|Hl]%elem_of_cons.
  - destruct (IH1 h (list_elem_of_here _ _)) as (body & Hb & HnLF & HnCR & Hsub).
    exists (String a body). split.
    { destruct Hb as [->| ->]; [by left|right]. by rewrite app_String. }
    simpl.
    split; [apply not_elem_of_cons; split; [congruence|done]|].
    split; [apply not_elem_of_cons; split; [congruence|done]|].
    intros c [->|Hc]%elem_of_cons; [apply list_elem_of_here|].
    by apply list_elem_of_further, Hsub.
  - apply Hweak. by apply list_elem_of_further.
Qed.

(** Every character that is no line break is in some line. *)
Lemma file_lines_cover content c :
  c ∈ list_ascii_of_string content → c ≠ Py.LF → c ≠ Py.CR →
  ∃ l, l ∈ Py.file_lines content ∧ c ∈ list_ascii_of_string l.
Proof.
  intros Hc HLF HCR. revert Hc.
  cut ((c ∈ list_ascii_of_string content →
          ∃ l, l ∈ Py.file_lines content ∧ c ∈ list_ascii_of_string l)
       ∧ (∀ a r, content = String a r → c ∈ list_ascii_of_string r →
          ∃ l, l ∈ Py.file_lines r ∧ c ∈ list_ascii_of_string l)).
  { by intros [H _]. }
  induction content as [|a s [IH1 IH2]].
  { split; [|done]. simpl. by intros ?%elem_of_nil. }
  split; [|by intros ? ? [= <- <-]].
  assert (Hweak : ∀ x, c ∈ list_ascii_of_string s →
            ∃ l, l ∈ x :: Py.file_lines s ∧ c ∈ list_ascii_of_string l).
  { intros x Hc. destruct (IH1 Hc) as (l & ? & ?). exists l.
    split; [by apply list_elem_of_further|done]. }
  simpl. intros [<-|Hc]%elem_of_cons.
  - rewrite decide_False, decide_False by done.
    destruct (Py.file_lines s) as [|h t].
    + exists (String c ""). split; [apply list_elem_of_here|].
      apply list_elem_of_here.
    + exists (String c h). split; apply list_elem_of_here.
  - destruct (decide (a = Py.LF)); [by apply Hweak|].
    destruct (decide (a = Py.CR)).
    { destruct s as [|c' r']; [by apply elem_of_nil in Hc|].
      destruct (decide (c' = Py.LF)) as [->|]; [|by apply Hweak].
      simpl in Hc. apply elem_of_cons in Hc as [->|Hc]; [done|].
      destruct (IH2 _ _ eq_refl Hc) as (l & ? & ?). exists l.
      split; [by apply list_elem_of_further|done]. }
    destruct (IH1 Hc) as (l & Hl & Hcl).
    destruct (Py.file_lines s) as [|h t]; [by apply elem_of_nil in Hl|].
    apply elem_of_cons in Hl as [->|Hl].
    + exists (String a h). split; [apply list_elem_of_here|].
      simpl. by apply list_elem_of_further.
    + exists l. split; [by apply list_elem_of_further|done].
Qed.

Lemma elem_of_read_paths content p :
  p ∈ read_paths content ↔
  ∃ l, l ∈ Py.file_lines content ∧ Py.strip l ≠ "" ∧ p = Py.strip l.
Proof.
  unfold read_paths. rewrite list_elem_of_fmap. split.
  - intros (l & -> & [? ?]%list_elem_of_filter). by exists l.
  - intros (l & ? & ? & ->). exists l. split; [done|].
    by apply list_elem_of_filter.
Qed.

Lemma line_strip_body body :
  Py.strip (body +:+ String Py.LF "") = Py.strip body.
Proof. apply strip_snoc_space, LF_space. Qed.

Lemma read_paths_clean (content p : string) :
  p ∈ read_paths content →
  p ≠ ""
  ∧ Py.strip p = p
  ∧ (∀ c r, p = String c r → Py.isspace c = false)
  ∧ (∀ r c, p = r +:+ String c "" → Py.isspace c = false)
  ∧ (Py.LF ∉ list_ascii_of_string p)
  ∧ (Py.CR ∉ list_ascii_of_string p)
  ∧ (∀ c, c ∈ list_ascii_of_string p → c ∈ list_ascii_of_string content).
Proof.
  intros (l & Hl & Hne & ->)%elem_of_read_paths.
  split; [done|]. split; [apply strip_idem|].
  split; [intros c r; apply strip_head|].
  split; [intros r c H; apply (rstrip_last (Py.lstrip l) r c H)|].
  destruct (file_lines_shape _ _ Hl) as (body & Hb & HnLF & HnCR & Hsub).
  assert (Hstrip : Py.strip l = Py.strip body).
  { destruct Hb as [->| ->]; [done|apply line_strip_body]. }
  rewrite Hstrip.
  split; [intros H%strip_chars; done|].
  split; [intros H%strip_chars; done|].
  intros c Hc%strip_chars. by apply Hsub.
Qed.

(** X6: every loaded path is a non-empty fixed point of [strip]: it
    neither starts nor ends with a whitespace character, it contains no
    line break, and all its characters come from the file. *)
Theorem X6_loaded_paths_clean (content p : string) :
  p ∈ read_paths content →
  p ≠ ""
  ∧ Py.strip p = p
  ∧ (∀ c r, p = String c r → Py.isspace c = false)
  ∧ (∀ r c, p = r +:+ String c "" → Py.isspace c = false)
  ∧ (Py.LF ∉ list_ascii_of_string p)
  ∧ (Py.CR ∉ list_ascii_of_string p)
  ∧ (∀ c, c ∈ list_ascii_of_string p → c ∈ list_ascii_of_string content).
Proof. apply read_paths_clean. Qed.

Lemma X6_loaded_paths_clean_witness :
  let content := "  PROJECT INSTRUCTIONS/A " +:+ NL +:+ NL +:+ "x" in
  let p := "PROJECT INSTRUCTIONS/A" in
  read_paths content = [p; "x"]
  ∧ p ≠ ""
  ∧ Py.strip p = p
  ∧ (∀ c r, p = String c r → Py.isspace c = false)
  ∧ (∀ r c, p = r +:+ String c "" → Py.isspace c = false)
  ∧ (Py.LF ∉ list_ascii_of_string p)
  ∧ (Py.CR ∉ list_ascii_of_string p)
  ∧ (∀ c, c ∈ list_ascii_of_string p → c ∈ list_ascii_of_string content).
Proof.
  intros content p. split; [reflexivity|].
  apply (X6_loaded_paths_clean content p).
  change (p ∈ [p; "x"]). apply list_elem_of_here.
Defined.

(** X7: no path is loaded exactly when every character of the file is a
    whitespace character; the empty file is one case. *)
Theorem X7_blank_file (content : string) :
  read_paths content = [] ↔
  ∀ c, c ∈ list_ascii_of_string content → Py.isspace c = true.
Proof.
  split.
  - intros Hnil c Hc. destruct (Py.isspace c) eqn:Hsp; [done|]. exfalso.
    destruct (file_lines_cover content c Hc) as (l & Hl & Hcl).
    { intros ->. by rewrite LF_space in Hsp. }
    { intros ->. by rewrite CR_space in Hsp. }
    assert (Hin : Py.strip l ∈ read_paths content).
    { apply elem_of_read_paths. exists l. split; [done|].
      split; [by apply (strip_nonempty l c)|done]. }
    rewrite Hnil in Hin. by apply elem_of_nil in Hin.
  - intros Hall. apply elem_of_nil_inv.
    intros p (l & Hl & Hne & _)%elem_of_read_paths. apply Hne.
    destruct (file_lines_shape _ _ Hl) as (body & Hb & _ & _ & Hsub).
    assert (Hbody : Py.strip body = "").
    { apply strip_all_space. intros c Hc. by apply Hall, Hsub. }
    destruct Hb as [->| ->]; [done|by rewrite line_strip_body].
Qed.

(** ** Writing the paths and reading them back *)

Lemma file_lines_clean p :
  Py.LF ∉ list_ascii_of_string p → Py.CR ∉ list_ascii_of_string p →
  p ≠ "" → Py.file_lines p = [p].
Proof.
  induction p as [|a p IH]; [done|]. simpl.
  intros [HLF HnLF]%not_elem_of_cons [HCR HnCR]%not_elem_of_cons _.
  rewrite decide_False, decide_False by congruence.
  destruct p as [|b p]; [done|]. by rewrite IH.
Qed.

Lemma file_lines_clean_cons p rest :
  Py.LF ∉ list_ascii_of_string p → Py.CR ∉ list_ascii_of_string p →
  Py.file_lines (p +:+ String Py.LF rest) =
  (p +:+ String Py.LF "") :: Py.file_lines rest.
Proof.
  induction p as [|a p IH].
  - intros _ _. reflexivity.
  - simpl. intros [HLF HnLF]%not_elem_of_cons [HCR HnCR]%not_elem_of_cons.
    rewrite app_String. simpl.
    rewrite decide_False, decide_False by congruence. by rewrite IH.
Qed.

Lemma read_paths_line p rest :
  Py.LF ∉ list_ascii_of_string p → Py.CR ∉ list_ascii_of_string p →
  Py.strip p = p → p ≠ "" →
  read_paths (p +:+ String Py.LF rest) = p :: read_paths rest.
Proof.
  intros HLF HCR Hs Hne. unfold read_paths.
  rewrite file_lines_clean_cons by done.
  rewrite filter_cons_True by (by rewrite line_strip_body, Hs).
  by rewrite fmap_cons, line_strip_body, Hs.
Qed.

(** X8: a file written with one path per line is read back as the same
    list of paths, when every path is non-empty, has no line break and no
    whitespace at either end. *)
Theorem X8_read_back (paths : list string) :
  (∀ p, p ∈ paths →
     p ≠ "" ∧ Py.strip p = p
     ∧ (Py.LF ∉ list_ascii_of_string p)
     ∧ (Py.CR ∉ list_ascii_of_string p)) →
  read_paths (Py.join NL paths) = paths.
Proof.
  induction paths as [|p paths IH]; intros H; [done|].
  destruct (H p (list_elem_of_here _ _)) as (Hne & Hs & HLF & HCR).
  destruct paths as [|q paths].
  - simpl. unfold read_paths. rewrite file_lines_clean by done.
    rewrite filter_cons_True by (by rewrite Hs). simpl. by rewrite Hs.
  - rewrite join_cons by done.
    change (NL +:+ Py.join NL (q :: paths))
      with (String Py.LF (Py.join NL (q :: paths))).
    rewrite read_paths_line by done. f_equal. apply IH.
    intros p' Hp'. by apply H, list_elem_of_further.
Qed.

Lemma X8_read_back_witness : read_paths (Py.join NL scenario) = scenario.
Proof.
  apply (X8_read_back scenario). intros p Hp.
  unfold scenario in Hp. rewrite !elem_of_cons, elem_of_nil in Hp.
  destruct Hp as [->|[->|[->|[->|[]]]]];
    (split; [discriminate|]; split; [reflexivity|];
     split; intros Hc%list_elem_of_In; vm_compute in Hc;
     intuition discriminate).
Defined.

(** ** The text written, line by line *)

Lemma split_id sep x : sep ∉ list_ascii_of_string x → Py.split sep x = [x].
Proof.
  induction x as [|a x IH]; simpl; [done|].
  intros [Ha Hx]%not_elem_of_cons.
  rewrite decide_False by congruence. by rewrite IH.
Qed.

Lemma split_join sep l :
  l ≠ [] → (∀ x, x ∈ l → sep ∉ list_ascii_of_string x) →
  Py.split sep (Py.join (String sep "") l) = l.
Proof.
  induction l as [|x l IH]; intros Hne Hall; [done|].
  destruct l as [|y l].
  - simpl. apply split_id, Hall, list_elem_of_here.
  - rewrite join_cons by done.
    change (String sep "" +:+ Py.join (String sep "") (y :: l))
      with (String sep (Py.join (String sep "") (y :: l))).
    rewrite split_app, IH; [|done|].
    + rewrite split_id; [done|]. apply Hall, list_elem_of_here.
    + intros z Hz. by apply Hall, list_elem_of_further.
Qed.

Lemma split_chars sep s seg c :
  seg ∈ Py.split sep s → c ∈ list_ascii_of_string seg →
  c ∈ list_ascii_of_string s.
Proof.
  revert seg. induction s as [|a s IH]; intros seg; simpl.
  - by intros ->%list_elem_of_singleton.
  - pose proof (split_not_nil sep s) as Hne.
    destruct (decide (a = sep)) as [->|Ha].
    + intros [->|Hseg]%elem_of_cons Hc; [by apply elem_of_nil in Hc|].
      by apply list_elem_of_further, (IH seg).
    + destruct (Py.split sep s) as [|h t]; [done|].
      intros [->|Hseg]%elem_of_cons Hc.
      * simpl in Hc. apply elem_of_cons in Hc as [->|Hc];
          [apply list_elem_of_here|].
        apply list_elem_of_further, (IH h); [apply list_elem_of_here|done].
      * apply list_elem_of_further, (IH seg); [|done].
        by apply list_elem_of_further.
Qed.

Lemma repeat_spaces_no_LF n :
  Py.LF ∉ list_ascii_of_string (Py.repeat_str "  " n).
Proof.
  induction n as [|n IH]; [apply not_elem_of_nil|].
  change (Py.repeat_str "  " (S n)) with ("  " +:+ Py.repeat_str "  " n).
  rewrite chars_app. intros [H|H]%elem_of_app; [|done].
  apply list_elem_of_In in H. vm_compute in H. intuition discriminate.
Qed.

Lemma entry_line_no_LF level name has_children :
  Py.LF ∉ list_ascii_of_string name →
  Py.LF ∉ list_ascii_of_string (entry_line level name has_children).
Proof.
  intros Hname. pose proof (repeat_spaces_no_LF (level - 1)) as Hindent.
  assert (Hlit : ∀ s, s ∈ ["# "; "- **"; "/**"; "- "] →
                      Py.LF ∉ list_ascii_of_string s).
  { intros s Hs. rewrite !elem_of_cons, elem_of_nil in Hs.
    destruct Hs as [->|[->|[->|[->|[]]]]];
      intros H%list_elem_of_In; vm_compute in H; intuition discriminate. }
  assert (Hl1 := Hlit "# "). assert (Hl2 := Hlit "- **").
  assert (Hl3 := Hlit "/**"). assert (Hl4 := Hlit "- ").
  rewrite !elem_of_cons in Hl1, Hl2, Hl3, Hl4.
  unfold entry_line. destruct (level =? 0); [|destruct has_children];
    rewrite !chars_app, !elem_of_app; tauto.
Qed.

Lemma entry_line_nonempty level name has_children :
  entry_line level name has_children ≠ "".
Proof.
  intros H. apply (f_equal String.length) in H. revert H.
  unfold entry_line. destruct (level =? 0); [|destruct has_children];
    rewrite !app_length; simpl; lia.
Qed.

Lemma node_name_segment paths p name :
  is_Some (descend (build_tree (Py.sorted paths)) (p ++ [name])) →
  ∃ path, path ∈ paths ∧ name ∈ Py.split SLASH path.
Proof.
  intros [Hnil|(path & parts & Hin & Hrel & [rest Hpre])]%descend_build_tree.
  { by destruct p. }
  exists path. split; [done|].
  apply rel_parts_Some in Hrel as (pre & suf & -> & _ & <-).
  rewrite Hpre. apply elem_of_app. right. rewrite <- app_assoc.
  apply elem_of_app. right. apply list_elem_of_here.
Qed.

(** X9: the text written for a file has no blank line and no line longer
    than one printed line: cut at the line breaks, it gives back exactly
    the lines that [print_node] appended, and one empty line when there
    are none. *)
Theorem X9_output_lines (content : string) :
  let paths := read_paths content in
  let lines := print_node (build_tree (Py.sorted paths)) 0 [] in
  (∀ line, line ∈ lines →
     line ≠ "" ∧ (Py.LF ∉ list_ascii_of_string line))
  ∧ Py.split Py.LF (render paths) =
    match lines with [] => [""] | _ :: _ => lines end.
Proof.
  intros paths lines.
  assert (Hlines : ∀ line, line ∈ lines →
            line ≠ "" ∧ (Py.LF ∉ list_ascii_of_string line)).
  { intros line (p & name & child & Hd & ->)%elem_of_print_node.
    split; [apply entry_line_nonempty|]. apply entry_line_no_LF.
    destruct (node_name_segment paths p name) as (path & Hin & Hseg).
    { by rewrite Hd. }
    intros Hc. apply (split_chars _ _ _ _ Hseg) in Hc.
    by destruct (read_paths_clean content path Hin) as (_ & _ & _ & _ & ? & _). }
  split; [done|]. unfold render. fold paths. fold lines.
  destruct lines as [|x l] eqn:E; [done|].
  apply split_join; [done|]. intros y Hy. by apply Hlines.
Qed.

(** ** What precedes the anchor does not count *)

Lemma index_app_notin l1 l2 x :
  x ∉ l1 → Py.index (l1 ++ l2) x = (λ i, length l1 + i) <$> Py.index l2 x.
Proof.
  induction l1 as [|y l1 IH]; simpl.
  - intros _. by destruct (Py.index l2 x).
  - intros [Hy Hl1]%not_elem_of_cons.
    rewrite decide_False by congruence. rewrite IH by done.
    by destruct (Py.index l2 x).
Qed.

Lemma rel_parts_prefix pre path :
  ROOT_NAME ∉ Py.split SLASH pre →
  rel_parts (pre +:+ String SLASH path) = rel_parts path.
Proof.
  intros Hpre. unfold rel_parts. rewrite split_app, index_app_notin by done.
  destruct (Py.index (Py.split SLASH path) ROOT_NAME) as [i|]; simpl; [|done].
  by rewrite drop_app_add.
Qed.

(** X10: the segments before the anchor are dropped: putting directories
    that are not the anchor in front of a path changes neither the entry
    it is normalized to nor the output. *)
Theorem X10_leading_segments_ignored (pre path : string)
    (l1 l2 : list string) :
  ROOT_NAME ∉ Py.split SLASH pre →
  rel_parts (pre +:+ "/" +:+ path) = rel_parts path
  ∧ render (l1 ++ (pre +:+ "/" +:+ path) :: l2) = render (l1 ++ path :: l2).
Proof.
  intros Hpre.
  assert (Hrel : rel_parts (pre +:+ "/" +:+ path) = rel_parts path)
    by (by apply rel_parts_prefix).
  split; [done|]. apply render_entries. intros parts. unfold entry_of.
  split; intros (x & Hin & Hx).
  - apply elem_of_app in Hin as [?|[->|?]%elem_of_cons].
    + exists x. split; [apply elem_of_app; by left|done].
    + exists path. split; [|congruence].
      apply elem_of_app. right. apply list_elem_of_here.
    + exists x. split; [|done].
      apply elem_of_app. right. by apply list_elem_of_further.
  - apply elem_of_app in Hin as [?|[->|?]%elem_of_cons].
    + exists x. split; [apply elem_of_app; by left|done].
    + exists (pre +:+ "/" +:+ path). split; [|congruence].
      apply elem_of_app. right. apply list_elem_of_here.
    + exists x. split; [|done].
      apply elem_of_app. right. by apply list_elem_of_further.
Qed.

Lemma X10_leading_segments_ignored_witness :
  rel_parts ("home/kids" +:+ "/" +:+ "PROJECT INSTRUCTIONS/A")
  = rel_parts "PROJECT INSTRUCTIONS/A"
  ∧ render ([] ++ ("home/kids" +:+ "/" +:+ "PROJECT INSTRUCTIONS/A") :: [])
    = render ([] ++ "PROJECT INSTRUCTIONS/A" :: []).
Proof.
  apply (X10_leading_segments_ignored "home/kids" "PROJECT INSTRUCTIONS/A").
  apply index_None. reflexivity.
Defined.

(** ** [print_node] only appends *)

(** X11: a call of [print_node] leaves the lines that were there in their
    place and appends after them; what it appends does not depend on
    them. *)
Theorem X11_print_node_appends (node : tree) (level : nat)
    (lines : list string) :
  print_node node level lines = lines ++ print_node node level []
  ∧ lines `prefix_of` print_node node level lines.
Proof.
  split; [apply print_node_app|].
  rewrite print_node_app. by apply prefix_app_r.
Qed.
